(** * Request streaming and routing core: model and properties

    Shallow embedding of [jina/serve/stream/helper.py] (the request counter
    and the asynchronous request iterator of the Gateway) and of the
    scenarios exercised by [tests/integration/runtimes/test_runtimes.py] and
    [tests/integration/override_config_params/worker/test_override_config_params.py]. *)

From Stdlib Require Import ZArith Lia.
From Stdlib Require Strings.Byte.
From stdpp Require Import gmap strings list fin_maps sorting pretty.

Local Open Scope Z_scope.

(** ** Data model *)

(** A document: only the fields the routing core and the tests look at;
    [doc_id] is its identity (Section 3 of the spec). *)
Record Document := mkDocument {
  doc_id : string;
  text : string;
  tags : gmap string nat
}.

(** A request: header (id, endpoint), document list, parameters, routing trace. *)
Record Request := mkRequest {
  request_id : nat;
  endpoint : string;
  docs : list Document;
  parameters : gmap string string;
  routes : list string
}.

(** ** [jina/serve/stream/helper.py] *)

(** What a client iterator may hand over: Python's [None] or a request. *)
Inductive PyValue :=
| PyNone
| PyRequest (r : Request).

Inductive Exception :=
| StopIteration
| StopAsyncIteration
| UnboundLocalError
| AttributeError.

(** [class RequestsCounter: count = 0] *)
Record RequestsCounter := mkCounter { count : Z }.

Definition RequestsCounter_new : RequestsCounter := {| count := 0 |}.

(** The object handed to [AsyncRequestsIterator]: the two [isinstance] tests
    of [__anext__] and the values it still has to produce. *)
Record ClientIterator := mkIter {
  is_Iterator : bool;
  is_AsyncIterator : bool;
  pending : list PyValue
}.

Definition advance (it : ClientIterator) (rest : list PyValue) : ClientIterator :=
  {| is_Iterator := is_Iterator it;
     is_AsyncIterator := is_AsyncIterator it;
     pending := rest |}.

(** [iterator.__next__()]: the next value, or [StopIteration] when exhausted. *)
Definition iter_next (it : ClientIterator) : (PyValue + Exception) * ClientIterator :=
  match pending it with
  | [] => (inr StopIteration, it)
  | v :: rest => (inl v, advance it rest)
  end.

(** [await iterator.__anext__()]: the next value, or [StopAsyncIteration]. *)
Definition iter_anext (it : ClientIterator) : (PyValue + Exception) * ClientIterator :=
  match pending it with
  | [] => (inr StopAsyncIteration, it)
  | v :: rest => (inl v, advance it rest)
  end.

(** [AsyncRequestsIterator.__init__]. [_request_counter] holds the current
    content of the counter object shared with the other tasks of the event
    loop ([None] when no counter was passed). *)
Record AsyncRequestsIterator := mkARI {
  iterator : ClientIterator;
  _request_counter : option RequestsCounter;
  _prefetch : Z
}.

Definition with_iterator (self : AsyncRequestsIterator) (it : ClientIterator) :=
  {| iterator := it;
     _request_counter := _request_counter self;
     _prefetch := _prefetch self |}.

(** Another task assigns [request_counter.count = c] on the shared object. *)
Definition write_count (c : Z) (self : AsyncRequestsIterator) :=
  {| iterator := iterator self;
     _request_counter :=
       match _request_counter self with
       | Some _ => Some {| count := c |}
       | None => None
       end;
     _prefetch := _prefetch self |}.

(** [AsyncRequestsIterator.iterator__next__]:
    [try: return self.iterator.__next__() except StopIteration: return None]. *)
Definition iterator__next__ (self : AsyncRequestsIterator)
  : (PyValue + Exception) * AsyncRequestsIterator :=
  match iter_next (iterator self) with
  | (inl v, it') => (inl v, with_iterator self it')
  | (inr StopIteration, it') => (inl PyNone, with_iterator self it')
  | (inr e, it') => (inr e, with_iterator self it')
  end.

(** Program points of the coroutine [__anext__], named after the source
    lines.  [Line65], [Line72] and [Line86] are the three [await]s, where the
    coroutine is suspended and the event loop runs other tasks; the futures
    awaited at [Line72] and [Line86] carry their outcome. *)
Inductive Frame :=
| Line63                                  (* if self._prefetch > 0: *)
| Line64                                  (* while self._request_counter.count >= self._prefetch: *)
| Line65                                  (* await asyncio.sleep(0) *)
| Line66                                  (* if isinstance(self.iterator, Iterator): *)
| Line72 (fut : PyValue + Exception)      (* request = await ...run_in_executor(None, self.iterator__next__) *)
| Line86 (fut : PyValue + Exception)      (* request = await self.iterator.__anext__() *)
| Finished (res : PyValue + Exception).   (* return request / raise *)

Definition suspended (f : Frame) : bool :=
  match f with
  | Line65 | Line72 _ | Line86 _ => true
  | _ => false
  end.

(** The step of [__anext__] at [Line66] consults the underlying iterator. *)
Definition pulls (self : AsyncRequestsIterator) (f : Frame) : bool :=
  match f with
  | Line66 => is_Iterator (iterator self) || is_AsyncIterator (iterator self)
  | _ => false
  end.

(** One step of [AsyncRequestsIterator.__anext__]. *)
Definition anext_step (self : AsyncRequestsIterator) (f : Frame)
  : AsyncRequestsIterator * Frame :=
  match f with
  | Line63 =>
      if 0 <? _prefetch self then (self, Line64) else (self, Line66)
  | Line64 =>
      match _request_counter self with
      | None => (self, Finished (inr AttributeError))
      | Some rc =>
          if _prefetch self <=? count rc then (self, Line65) else (self, Line66)
      end
  | Line65 => (self, Line64)
  | Line66 =>
      if is_Iterator (iterator self) then
        let '(r, self') := iterator__next__ self in (self', Line72 r)
      else if is_AsyncIterator (iterator self) then
        let '(r, it') := iter_anext (iterator self) in
        (with_iterator self it', Line86 r)
      else (self, Finished (inr UnboundLocalError))
  | Line72 (inl PyNone) => (self, Finished (inr StopAsyncIteration))
  | Line72 (inl v) => (self, Finished (inl v))
  | Line72 (inr e) => (self, Finished (inr e))
  | Line86 r => (self, Finished r)
  | Finished r => (self, Finished r)
  end.

(** ** The cooperative event loop

    A coroutine runs until it suspends; while it is suspended the other
    tasks of the loop run and may touch the shared state.  [sched] lists, one
    entry per suspension, what they do; when it is used up nothing else
    runs. *)
Section EventLoop.
Context {State Other : Type}.
Variable step : State -> State.
Variable is_suspended : State -> bool.
Variable interfere : Other -> State -> State.

Fixpoint run (n : nat) (sched : list Other) (s : State) : State :=
  match n with
  | O => s
  | S n' =>
      if is_suspended s then
        match sched with
        | o :: sched' => run n' sched' (step (interfere o s))
        | [] => run n' [] (step s)
        end
      else run n' sched (step s)
  end.
End EventLoop.

(** [__anext__] under the event loop: the other tasks write the counter. *)
Definition Coroutine : Type := AsyncRequestsIterator * Frame.

Definition coroutine_step (c : Coroutine) : Coroutine := anext_step (fst c) (snd c).
Definition coroutine_suspended (c : Coroutine) : bool := suspended (snd c).
Definition coroutine_interfere (v : Z) (c : Coroutine) : Coroutine :=
  (write_count v (fst c), snd c).

(** Runs of the coroutine from an arbitrary program point. *)
Abbreviation corun := (run coroutine_step coroutine_suspended coroutine_interfere).

(** [await it.__anext__()], for at most [n] steps of the coroutine. *)
Definition __anext__ (n : nat) (sched : list Z) (self : AsyncRequestsIterator) : Coroutine :=
  corun n sched (self, Line63).

(** ** The Gateway's admission loop

    The loop that consumes [AsyncRequestsIterator] and keeps the in-flight
    counter is the caller of [helper.py]; it follows Sections 3, 4.3 and 9
    of the spec. *)

(** Modelled from the spec: the states of the Gateway's admission loop around
    [async for request in AsyncRequestsIterator(...)]; the loop is the caller of
    [helper.py] and is not among the sources. *)
Inductive LoopState :=
| Iterating (f : Frame)        (* inside [async for request in AsyncRequestsIterator(...)] *)
| EndOfStream                  (* the iterator raised [StopAsyncIteration] *)
| Crashed (e : Exception).

(** Modelled from the spec: the Gateway's admission loop (Section 4.3, steps 1 and 5):
    the iterator it consumes, with the shared counter, and the requests admitted
    so far. *)
Record Streamer := mkStreamer {
  requests_iter : AsyncRequestsIterator;
  at_loop : LoopState;
  admitted : list PyValue
}.

(** Modelled from the spec: an update of the in-flight counter by the admission loop
    (Section 3, request counter). *)
Definition map_count (g : Z -> Z) (self : AsyncRequestsIterator) :=
  {| iterator := iterator self;
     _request_counter :=
       match _request_counter self with
       | Some rc => Some {| count := g (count rc) |}
       | None => None
       end;
     _prefetch := _prefetch self |}.

(** Modelled from the spec: the requests currently in flight at the Gateway (Section 3:
    the request counter is the number of in-flight client requests). *)
Definition in_flight (s : Streamer) : Z :=
  match _request_counter (requests_iter s) with
  | Some rc => count rc
  | None => 0
  end.

(** Modelled from the spec: one step of the admission loop (Section 4.3; Section 9,
    acquire on admission): it runs [__anext__]; a value it returns is admitted
    and the in-flight counter incremented; [StopAsyncIteration] ends the loop. *)
Definition streamer_step (s : Streamer) : Streamer :=
  match at_loop s with
  | Iterating (Finished (inl v)) =>
      {| requests_iter := map_count Z.succ (requests_iter s);
         at_loop := Iterating Line63;
         admitted := admitted s ++ [v] |}
  | Iterating (Finished (inr StopAsyncIteration)) =>
      {| requests_iter := requests_iter s; at_loop := EndOfStream; admitted := admitted s |}
  | Iterating (Finished (inr e)) =>
      {| requests_iter := requests_iter s; at_loop := Crashed e; admitted := admitted s |}
  | Iterating f =>
      let '(self', f') := anext_step (requests_iter s) f in
      {| requests_iter := self'; at_loop := Iterating f'; admitted := admitted s |}
  | EndOfStream | Crashed _ => s
  end.

(** Modelled from the spec: the admission loop is suspended where [__anext__] is, and
    idle once the stream has ended (Section 5, suspension points). *)
Definition streamer_suspended (s : Streamer) : bool :=
  match at_loop s with
  | Iterating f => suspended f
  | EndOfStream | Crashed _ => true
  end.

(** Modelled from the spec: while the loop is suspended, [k] in-flight requests complete
    and the counter is decremented for each (Section 4.3, step 5). *)
Definition complete (k : nat) (s : Streamer) : Streamer :=
  {| requests_iter := map_count (fun c => Z.max 0 (c - Z.of_nat k)) (requests_iter s);
     at_loop := at_loop s;
     admitted := admitted s |}.

(** Modelled from the spec: the admission loop at start, with a fresh counter
    ([count = 0]). *)
Definition streamer_init (it : ClientIterator) (prefetch : Z) : Streamer :=
  {| requests_iter :=
       {| iterator := it; _request_counter := Some RequestsCounter_new; _prefetch := prefetch |};
     at_loop := Iterating Line63;
     admitted := [] |}.

(** Modelled from the spec: the admission loop under the event loop. *)
Definition stream (n : nat) (sched : list nat) (s : Streamer) : Streamer :=
  run streamer_step streamer_suspended complete n sched s.

(** When does the back-pressure loop of [__anext__] let the call through:
    back-pressure is off, or some observation of the counter is below the
    prefetch value. *)
Definition lets_through (prefetch : Z) (rc : option RequestsCounter) (sched : list Z) : Prop :=
  prefetch <= 0 \/
  exists c, rc = Some c /\ Exists (fun v => v < prefetch) (count c :: sched).

(** ** Worker

    The Worker runtime, the executor base class and the [requests] decorator
    are not among the sources; the definitions follow Sections 4.1 and 9 of
    the spec. *)

(** Modelled from the spec: a handler, [(documents, parameters) -> documents] (Section 9,
    executor plug-in model). *)
Definition Handler : Type := list Document -> gmap string string -> list Document.

(** Modelled from the spec: how a method is declared, undecorated, [@requests] (default
    handler) or [@requests(on=[...])] (Section 4.1, registration rules). *)
Inductive Decorator :=
| undecorated
| requests (on : option (list string)).   (* [@requests] / [@requests(on=[...])] *)

(** Modelled from the spec: a method of an executor class. *)
Record Method := mkMethod {
  method_name : string;
  decorator : Decorator;
  body : Handler
}.

(** Modelled from the spec: an executor class, its methods in definition order. *)
Definition Executor : Type := list Method.

(** Modelled from the spec: what the worker passes to the executor's constructor
    ([runtime_args] in the tests). *)
Record RuntimeArgs := mkRuntimeArgs {
  name : string;
  shard_id : nat
}.

(** Modelled from the spec: a default handler binds to [/default] (Section 4.1). *)
Definition default_endpoint : string := "/default".

(** Modelled from the spec: a handler declared for a list of endpoints is bound to each
    (Section 4.1). *)
Definition bind_all (h : string) (eps : list string) (tbl : gmap string string)
  : gmap string string :=
  foldr (fun e t => <[e := h]> t) tbl eps.

(** Modelled from the spec: the bindings declared by one method's decorator (Section 4.1). *)
Definition declare (tbl : gmap string string) (m : Method) : gmap string string :=
  match decorator m with
  | undecorated => tbl
  | requests None => <[default_endpoint := method_name m]> tbl
  | requests (Some eps) => bind_all (method_name m) eps tbl
  end.

(** Modelled from the spec: the bindings declared by a class. *)
Definition declared_requests (cls : Executor) : gmap string string :=
  foldl declare ∅ cls.

(** Modelled from the spec: the endpoint table of a worker, the overrides of the launch
    arguments merged over the declarations (Sections 4.1 and 9). *)
Definition endpoint_table (cls : Executor) (uses_requests : gmap string string)
  : gmap string string :=
  uses_requests ∪ declared_requests cls.

(** Modelled from the spec: the method of a class with a given name. *)
Definition get_method (cls : Executor) (h : string) : option Method :=
  List.find (fun m => bool_decide (method_name m = h)) cls.

(** Modelled from the spec: the handler serving an endpoint, by name: the endpoint's own
    binding, else the default handler (Section 4.1, steps 1 and 2). *)
Definition resolve (tbl : gmap string string) (ep : string) : option string :=
  match tbl !! ep with
  | Some h => Some h
  | None => tbl !! default_endpoint
  end.

(** Modelled from the spec: a running worker, its name, executor and endpoint table. *)
Record Worker := mkWorker {
  worker_name : string;
  executor : Executor;
  requests_table : gmap string string
}.

(** Modelled from the spec: start of a worker, which constructs the executor once and
    builds its endpoint table (Section 3, lifecycles). *)
Definition worker_start (uses : RuntimeArgs -> Executor) (uses_requests : gmap string string)
    (args : RuntimeArgs) : Worker :=
  {| worker_name := name args;
     executor := uses args;
     requests_table := endpoint_table (uses args) uses_requests |}.

(** Modelled from the spec: the handler a worker selects for an endpoint. *)
Definition serving (w : Worker) (ep : string) : option Method :=
  match resolve (requests_table w) ep with
  | Some h => get_method (executor w) h
  | None => None
  end.

(** Modelled from the spec: the request with its document list replaced (Section 4.1, step 3). *)
Definition with_docs (req : Request) (ds : list Document) : Request :=
  {| request_id := request_id req; endpoint := endpoint req; docs := ds;
     parameters := parameters req; routes := routes req |}.

(** Modelled from the spec: the request with a name appended to its routing trace
    (Section 4.1, step 4). *)
Definition visited (who : string) (req : Request) : Request :=
  {| request_id := request_id req; endpoint := endpoint req; docs := docs req;
     parameters := parameters req; routes := routes req ++ [who] |}.

(** Modelled from the spec: [process(request) -> request] of the Worker (Section 4.1);
    without a matching handler the request is returned unchanged. *)
Definition worker_process (w : Worker) (req : Request) : Request :=
  visited (worker_name w)
    match serving w (endpoint req) with
    | Some m => with_docs req (body m (docs req) (parameters req))
    | None => req
    end.

(** ** Head

    The Head runtime is not among the sources; the definitions follow
    Section 4.2 of the spec. *)

(** Modelled from the spec: the polling policy (Section 3). *)
Inductive PollingType := ANY | ALL.

(** Modelled from the spec: the configuration of a Head and its round-robin state
    (Section 4.2); the shard/replica connection table maps a shard index to
    its replicas. *)
Record Head := mkHead {
  head_name : string;
  connection_list : list (list Worker);    (* shard index -> replicas *)
  uses_before_address : option Worker;
  uses_after_address : option Worker;
  polling : PollingType;                     (* the [*] default *)
  endpoint_polling : gmap string PollingType;
  shard_counter : nat;                       (* round-robin across shards, for ANY *)
  replica_counters : gmap nat nat            (* round-robin within each shard *)
}.

(** Modelled from the spec: polling resolution, per endpoint with the default as
    fall-back (Section 4.2, step 2). *)
Definition resolve_polling (h : Head) (ep : string) : PollingType :=
  default (polling h) (endpoint_polling h !! ep).

(** Modelled from the spec: identity of documents is by id (Section 3): a document
    joins a list unless a document with its id is there already. *)
Definition add_document (acc : list Document) (d : Document) : list Document :=
  if decide (doc_id d ∈ doc_id <$> acc) then acc else acc ++ [d].

(** Modelled from the spec: the document lists of several responses merged (Section 4.2,
    step 4, with the identity of Section 3): the lists in order, the first as
    it is, then every document of the others that is not there yet.  This is
    what makes [input_docs + N] documents of [N] shard responses (Section 8,
    invariant 2; [test_pod_activates_shards] of [test_deployments.py] counts
    4 documents for 3 shards and one input). *)
Definition merge_docs (parts : list (list Document)) : list Document :=
  match parts with
  | [] => []
  | first :: rest => foldl add_document first (concat rest)
  end.

(** Modelled from the spec: the merge rule (Section 4.2, step 4), document lists
    merged in order, parameter maps united with the last writer winning,
    route traces concatenated in order. *)
Definition merge_requests (base : Request) (parts : list Request) : Request :=
  {| request_id := request_id base;
     endpoint := endpoint base;
     docs := merge_docs (docs <$> parts);
     parameters := foldl (fun acc r => parameters r ∪ acc) ∅ parts;
     routes := concat (routes <$> parts) |}.

(** Modelled from the spec: what a dedicated reducer (uses-after) receives (Section 4.2,
    step 4): the shard responses in shard order with their document lists
    concatenated as they are, the reduction being the reducer's, whose reply
    is authoritative.  [test_runtimes_with_executor] counts
    [(1 + 1 + 1) * 10 + 1] documents behind a uses-after worker, the input
    document ten times. *)
Definition concat_requests (base : Request) (parts : list Request) : Request :=
  {| request_id := request_id base;
     endpoint := endpoint base;
     docs := concat (docs <$> parts);
     parameters := foldl (fun acc r => parameters r ∪ acc) ∅ parts;
     routes := concat (routes <$> parts) |}.

(** Modelled from the spec: the replica of shard [i] whose turn it is, and the advanced
    round-robin counter (Section 4.2, round-robin state). *)
Definition pick_replica (counters : gmap nat nat) (i : nat) (replicas : list Worker)
  : option Worker * gmap nat nat :=
  let k := default O (counters !! i) in
  (replicas !! (k mod length replicas)%nat,
   <[i := (S k mod length replicas)%nat]> counters).

(** Modelled from the spec: dispatch of a request to one shard, collecting its response. *)
Definition send_to_shard (req : Request) (acc : list Request * gmap nat nat)
    (shard : nat * list Worker) : list Request * gmap nat nat :=
  let '(w, counters) := pick_replica acc.2 shard.1 shard.2 in
  match w with
  | Some w => (acc.1 ++ [worker_process w req], counters)
  | None => (acc.1, counters)
  end.

(** Modelled from the spec: a Head with its round-robin counters updated. *)
Definition with_counters (h : Head) (s : nat) (counters : gmap nat nat) : Head :=
  {| head_name := head_name h; connection_list := connection_list h;
     uses_before_address := uses_before_address h;
     uses_after_address := uses_after_address h;
     polling := polling h; endpoint_polling := endpoint_polling h;
     shard_counter := s; replica_counters := counters |}.

(** Modelled from the spec: a request sent through an optional uses-before or uses-after
    worker (Section 4.2, steps 1 and 5). *)
Definition through (w : option Worker) (req : Request) : Request :=
  match w with
  | Some w => worker_process w req
  | None => req
  end.

(** Modelled from the spec: the Head's algorithm per request (Section 4.2): uses-before,
    polling resolution, dispatch to one shard (ANY, round-robin) or to every
    shard (ALL), merge (by the Head itself, or left to the uses-after
    reducer when one is configured), uses-after. *)
Definition head_process (h : Head) (req : Request) : Request * Head :=
  let working := through (uses_before_address h) req in
  let shards := imap pair (connection_list h) in
  match resolve_polling h (endpoint working) with
  | ANY =>
      let i := (shard_counter h mod length shards)%nat in
      match shards !! i with
      | Some shard =>
          let '(resps, counters) := send_to_shard working ([], replica_counters h) shard in
          (through (uses_after_address h) (default working (head resps)),
           with_counters h (S i mod length shards)%nat counters)
      | None => (through (uses_after_address h) working, h)
      end
  | ALL =>
      let '(resps, counters) := foldl (send_to_shard working) ([], replica_counters h) shards in
      let merged :=
        match uses_after_address h with
        | Some _ => concat_requests working resps
        | None => merge_requests working resps
        end in
      (through (uses_after_address h) merged,
       with_counters h (shard_counter h) counters)
  end.

(** ** Gateway

    The Gateway's traversal engine is not among the sources; the definitions
    follow Sections 3, 4.3 and 9 of the spec. *)

(** Modelled from the spec: the topology graph, a JSON object from pod names to their
    successors (Section 4.3, inputs). *)
Definition Topology : Type := list (string * list string).

(** Modelled from the spec: the source node of a topology graph. *)
Definition start_gateway : string := "start-gateway".

(** Modelled from the spec: the sink node of a topology graph. *)
Definition end_gateway : string := "end-gateway".

(** Modelled from the spec: the edges of a topology graph. *)
Definition edges (g : Topology) : list (string * string) :=
  kv ← g; pair kv.1 <$> kv.2.


(** Modelled from the spec: lexicographic order on pod names (Section 9, open questions). *)
Definition name_le (x y : string) : Prop := String.leb x y.

(** Modelled from the spec: the predecessors of a node, in lexicographic order. *)
Definition preds (g : Topology) (q : string) : list string :=
  merge_sort name_le (filter (fun e => e.2 = q) (edges g)).*1.

(** Modelled from the spec: the pods of a graph, every key but the two gateway nodes. *)
Definition pods (g : Topology) : list string :=
  filter (fun p => p <> start_gateway /\ p <> end_gateway) g.*1.

(** Modelled from the spec: the arena a request carries through the graph, with per-node
    slots for the responses received (Section 9), the pods called so far and
    the pod address table. *)
Record Arena := mkArena {
  slots : gmap string Request;       (* responses received, per node *)
  invoked : list string;             (* pods called so far, in order *)
  deployments : gmap string Head     (* pod address table *)
}.

(** Modelled from the spec: all predecessors of [p] have answered and [p] was not called
    yet (Section 4.3, step 3). *)
Definition ready (g : Topology) (a : Arena) (p : string) : bool :=
  bool_decide (slots a !! p = None)
  && bool_decide (preds g p <> [])
  && forallb (fun q => bool_decide (is_Some (slots a !! q))) (preds g p).

(** Modelled from the spec: a request sent to the Head of a pod (Section 4.3, step 3);
    there is nobody to call, and no answer, for a pod without an address. *)
Definition call_pod (d : gmap string Head) (p : string) (req : Request)
  : option (Request * gmap string Head) :=
  match d !! p with
  | Some h => let '(resp, h') := head_process h req in Some (resp, <[p := h']> d)
  | None => None
  end.

(** Modelled from the spec: the responses of the predecessors of a node. *)
Definition arrived (a : Arena) (g : Topology) (p : string) : list Request :=
  omap (fun q => slots a !! q) (preds g p).

(** Modelled from the spec: the traversal at one pod (Section 4.3, step 3): when the pod is
    ready, the responses of its predecessors are merged, sent to it, and its
    response kept for its successors. *)
Definition visit (g : Topology) (req : Request) (a : Arena) (p : string) : Arena :=
  if ready g a p then
    match call_pod (deployments a) p (merge_requests req (arrived a g p)) with
    | Some (resp, d) =>
        {| slots := <[p := resp]> (slots a);
           invoked := invoked a ++ [p];
           deployments := d |}
    | None => a
    end
  else a.

(** Modelled from the spec: one pass over the pods, calling those that are ready. *)
Definition sweep (g : Topology) (req : Request) (a : Arena) : Arena :=
  foldl (visit g req) a (pods g).

(** Modelled from the spec: the traversal of the graph for one request, from
    [start-gateway] (Section 4.3). *)
Definition traverse (g : Topology) (d : gmap string Head) (req : Request) : Arena :=
  Nat.iter (length (pods g)) (sweep g req)
    {| slots := {[start_gateway := req]}; invoked := []; deployments := d |}.

(** Modelled from the spec: the pods that feed [end-gateway], in lexicographic order
    (Section 4.3, step 3; Section 9, open questions). *)
Definition feeding (g : Topology) : list string :=
  filter (fun q => q <> start_gateway) (preds g end_gateway).

(** Modelled from the spec: what reaches the client for one request (Section 4.3, steps 3
    and 5).  A pod whose successor is [end-gateway] hands its response to the
    client output stream; [end-gateway] is a join like any node with several
    predecessors (Section 3, fan-in), so when several pods feed it their
    responses are merged, once all of them are there, into the one response
    of the request.  [test_runtimes_flow_topology] observes it: 20 responses
    for 20 requests over [complete_graph_dict], where [pod1] and [pod_last]
    both feed [end-gateway].  Without a pod feeding [end-gateway] nothing is
    emitted. *)
Definition emitted (g : Topology) (req : Request) (a : Arena) : list Request :=
  let answers := omap (fun q => slots a !! q) (feeding g) in
  if bool_decide (feeding g <> []) && bool_decide (length answers = length (feeding g))
  then [merge_requests req answers]
  else [].

(** Modelled from the spec: the Gateway's algorithm per client request (Section 4.3). *)
Definition gateway_handle (g : Topology) (d : gmap string Head) (req : Request)
  : list Request * gmap string Head :=
  let a := traverse g d req in (emitted g req a, deployments a).

(** Modelled from the spec: the Gateway on a stream of requests. *)
Definition gateway_stream (g : Topology) (d : gmap string Head) (reqs : list Request)
  : list Request * gmap string Head :=
  foldl (fun acc req =>
           let '(resps, d') := gateway_handle g acc.2 req in (acc.1 ++ resps, d'))
        ([], d) reqs.

(** Modelled from the spec: every pod of the graph has a Head in the pod address table
    (Section 3). *)
Definition addressed (g : Topology) (d : gmap string Head) : Prop :=
  Forall (fun p => is_Some (d !! p)) (pods g).

#[local] Instance addressed_dec g d : Decision (addressed g d).
Proof. unfold addressed. apply _. Defined.

(** Modelled from the spec: start of the Gateway; a pod without an address is a topology
    error, fatal at startup (Section 7). *)
Definition gateway_start (g : Topology) (d : gmap string Head) : option (gmap string Head) :=
  if decide (addressed g d) then Some d else None.

(** Modelled from the spec: a Gateway started on a graph and an address table, then fed
    a stream of requests: the responses the client receives, or nothing at
    all when the Gateway does not start. *)
Definition gateway_run (g : Topology) (d : gmap string Head) (reqs : list Request)
  : option (list Request) :=
  d' ← gateway_start g d; Some (gateway_stream g d' reqs).1.








(** ** Client

    The client is not among the sources; only its batching of the inputs
    into requests is needed. *)

(** Modelled from the spec: the client's batching of its input documents, [request_size]
    documents per request ([jina.clients] is not among the sources). *)
Fixpoint batches (fuel : nat) (size : nat) (ds : list Document) : list (list Document) :=
  match fuel, ds with
  | O, _ | _, [] => []
  | S fuel', _ => take size ds :: batches fuel' size (drop size ds)
  end.

(** Modelled from the spec: [Client.post(on, inputs, request_size)], one request per
    batch, all to one endpoint. *)
Definition client_post (on : string) (inputs : list Document) (request_size : nat)
  : list Request :=
  imap (fun i ds => {| request_id := i; endpoint := on; docs := ds;
                       parameters := ∅; routes := [] |})
       (batches (length inputs) (Nat.max 1 request_size) inputs).

(** ** The scenarios of [tests/integration/runtimes/test_runtimes.py] *)

(** Modelled from the spec: the id of the [i]-th document a client creates; every
    [Document(...)] gets an id of its own (Section 3: identity by id). *)
Definition input_id (i : nat) : string := "input" +:+ pretty i.

(** Modelled from the spec: the id of a document created by a worker.  Ids are unique
    (Section 3); the model takes the name of the creating worker, unique in a
    deployment, so that documents created by different workers differ. *)
Definition created_by (worker : string) : string := "doc@" +:+ worker.

(** [async def async_inputs(): for _ in range(20): yield Document(text='client0-Request')] *)
Definition async_inputs : list Document :=
  (fun i => mkDocument (input_id i) "client0-Request" ∅) <$> seq 0 20.

(** Modelled from the spec: the default executor of a worker launched without [uses]
    ([jina.Executor] is not among the sources); it declares no handler, so
    every request is returned unchanged (the spec's identity executor). *)
Definition BaseExecutor (_ : RuntimeArgs) : Executor := [].

(** [class NameChangeExecutor]: [@requests def foo]: [docs.append(Document(text=self.name))]. *)
Definition NameChangeExecutor (runtime_args : RuntimeArgs) : Executor :=
  [ mkMethod "foo" (requests None)
      (fun docs _ =>
         docs ++ [mkDocument (created_by (name runtime_args)) (name runtime_args) ∅]) ].



(** [_create_worker_runtime(port, name='', executor=None)] *)
Definition _create_worker_runtime (nm : string)
    (uses : option (RuntimeArgs -> Executor)) : Worker :=
  worker_start (default BaseExecutor uses) ∅ {| name := nm; shard_id := 0 |}.

(** [_create_head_runtime(port, connection_list_dict, name='', polling='ANY',
    uses_before=None, uses_after=None)] *)
Definition _create_head_runtime (connection_list_dict : list (list Worker)) (nm : string)
    (polling_arg : PollingType) (uses_before uses_after : option Worker) : Head :=
  {| head_name := nm; connection_list := connection_list_dict;
     uses_before_address := uses_before; uses_after_address := uses_after;
     polling := polling_arg; endpoint_polling := ∅;
     shard_counter := 0; replica_counters := ∅ |}.

(** [graph_description] of the single-pod tests. *)
Definition graph_description : Topology :=
  [ ("start-gateway", ["pod0"]); ("pod0", ["end-gateway"]) ].

(** The [complete_graph_dict] fixture. *)
Definition complete_graph_dict : Topology :=
  [ ("start-gateway", ["pod0"; "pod4"; "pod6"]);
    ("pod0", ["pod1"; "pod2"]);
    ("pod1", ["end-gateway"]);
    ("pod2", ["pod3"]);
    ("pod4", ["pod5"]);
    ("merger", ["pod_last"]);
    ("pod5", ["merger"]);
    ("pod3", ["merger"]);
    ("pod6", []);
    ("pod_last", ["end-gateway"]) ].

(** [test_runtimes_trivial_topology]: one worker, one head, one gateway. *)
Definition trivial_topology_pods : gmap string Head :=
  {[ "pod0" := _create_head_runtime [[_create_worker_runtime "" None]] "" ANY None None ]}.

Definition test_runtimes_trivial_topology : list Request :=
  (gateway_stream graph_description trivial_topology_pods
     (client_post "/" async_inputs 1)).1.

(** [test_runtimes_flow_topology]: per pod a worker behind a head with
    polling ANY, optionally with uses-before and uses-after workers. *)
Definition flow_topology_pod (uses_before uses_after : bool) (pod : string) : string * Head :=
  (pod,
   _create_head_runtime [[_create_worker_runtime (pod +:+ "/worker") None]]
     (pod +:+ "/head") ANY
     (if uses_before then Some (_create_worker_runtime (pod +:+ "/uses_before") None) else None)
     (if uses_after then Some (_create_worker_runtime (pod +:+ "/uses_after") None) else None)).

Definition flow_topology_pods (uses_before uses_after : bool) : gmap string Head :=
  list_to_map (flow_topology_pod uses_before uses_after <$> pods complete_graph_dict).

Definition test_runtimes_flow_topology (uses_before uses_after : bool) : list Request :=
  (gateway_stream complete_graph_dict (flow_topology_pods uses_before uses_after)
     (client_post "/" async_inputs 1)).1.

(** [test_runtimes_with_executor]: ten shards, polling ALL, uses-before and
    uses-after, every worker running [NameChangeExecutor]. *)
Definition shard_worker (uses : RuntimeArgs -> Executor) (prefix : string) (i : nat) : Worker :=
  worker_start uses ∅ {| name := prefix +:+ pretty i; shard_id := i |}.

Definition with_executor_pods : gmap string Head :=
  {[ "pod0" :=
       _create_head_runtime
         ((fun i => [shard_worker NameChangeExecutor "pod0/shards/" i]) <$> seq 0 10)
         "pod0/head" ALL
         (Some (_create_worker_runtime "pod0/uses_before" (Some NameChangeExecutor)))
         (Some (_create_worker_runtime "pod0/uses_after" (Some NameChangeExecutor))) ]}.

Definition test_runtimes_with_executor : list (list Document) :=
  docs <$> (gateway_stream graph_description with_executor_pods
              (client_post "/" async_inputs 1)).1.

(** [list.count(x)] *)
Definition py_count (x : string) (l : list string) : nat :=
  length (filter (fun y => y = x) l).

(** ** The scenario of [test_override_requests] *)

Definition set_text (t : string) (d : Document) : Document :=
  {| doc_id := doc_id d; text := t; tags := tags d |}.

(** [class MyExec(Executor)]: [@requests foo], undecorated [bar],
    [@requests(on=['/1', '/2']) foobar]; each sets the text of every document. *)
Definition MyExec (_ : RuntimeArgs) : Executor :=
  [ mkMethod "foo" (requests None) (fun docs _ => set_text "foo" <$> docs);
    mkMethod "bar" undecorated (fun docs _ => set_text "bar" <$> docs);
    mkMethod "foobar" (requests (Some ["/1"; "/2"])) (fun docs _ => set_text "foobar" <$> docs) ].

(** [Flow(port=exposed_port).add(uses=MyExec, uses_requests=...)]: the worker of the flow. *)
Definition flow_worker (uses_requests : gmap string string) : Worker :=
  worker_start MyExec uses_requests {| name := "executor0"; shard_id := 0 |}.

(** [Client(...).post(on, Document())] against that worker: the response's documents. *)
Definition post (w : Worker) (on : string) (inputs : list Document) : list Document :=
  docs (worker_process w {| request_id := 0; endpoint := on; docs := inputs;
                            parameters := ∅; routes := [] |}).

(** ** Invariants and auxiliary notions *)

(** With back-pressure on, control is at [Line66] only right after the
    counter was read below the prefetch value. *)
Definition below_prefetch (P : Z) (c : Coroutine) : Prop :=
  _prefetch (fst c) = P /\
  (snd c = Line66 ->
   exists rc, _request_counter (fst c) = Some rc /\ count rc < P).

(** While every observation of the counter is at or above the prefetch
    value, [__anext__] stays in its waiting loop. *)
Definition waiting (P : Z) (it : ClientIterator) (c : Coroutine) : Prop :=
  iterator (fst c) = it /\ _prefetch (fst c) = P /\
  (snd c = Line63 \/ snd c = Line64 \/ snd c = Line65) /\
  exists rc, _request_counter (fst c) = Some rc /\ P <= count rc.

(** With back-pressure off the waiting loop is never entered. *)
Definition skips_waiting (c : Coroutine) : Prop :=
  _prefetch c.1 <= 0 /\ c.2 <> Line64 /\ c.2 <> Line65.

(** A synchronous iterator that is exhausted, or whose next value is
    [None], makes [__anext__] end in [StopAsyncIteration] or, without a
    counter, in [AttributeError]; it never delivers a value. *)
Definition stopping (c : Coroutine) : Prop :=
  is_Iterator (iterator c.1) = true /\
  match c.2 with
  | Line63 | Line64 | Line65 | Line66 =>
      match pending (iterator c.1) with [] | PyNone :: _ => True | _ => False end
  | Line72 (inl PyNone) => True
  | Finished (inr StopAsyncIteration) | Finished (inr AttributeError) => True
  | _ => False
  end.

(** An object that is neither an [Iterator] nor an [AsyncIterator] is never
    consulted, and the call can only end in an error. *)
Definition unsupported (it : ClientIterator) (c : Coroutine) : Prop :=
  iterator c.1 = it /\
  match c.2 with
  | Line63 | Line64 | Line65 | Line66 => True
  | Finished (inr UnboundLocalError) | Finished (inr AttributeError) => True
  | _ => False
  end.

(** For the two supported runtime types the local [request] is always
    assigned before [return request]. *)
Definition supported (c : Coroutine) : Prop :=
  is_Iterator (iterator c.1) || is_AsyncIterator (iterator c.1) = true /\
  match c.2 with
  | Line72 (inr _) => False
  | Line86 (inr e) | Finished (inr e) => e <> UnboundLocalError
  | _ => True
  end.

(** The program points past the waiting loop. *)
Definition past_waiting (f : Frame) : bool :=
  match f with
  | Line63 | Line64 | Line65 => false
  | _ => true
  end.

(** The counter stays within [0 .. P]; past the waiting loop, and until the
    request is admitted, it is strictly below [P]. *)
Definition streamer_inv (P : Z) (s : Streamer) : Prop :=
  _prefetch (requests_iter s) = P /\
  exists rc, _request_counter (requests_iter s) = Some rc /\
    0 <= count rc <= P /\
    match at_loop s with
    | Iterating f => past_waiting f = true -> count rc < P
    | _ => True
    end.





(** The deployments of [test_runtimes_replicas] (ten replicas of one shard)
    and [test_runtimes_shards] (ten shards of one replica). *)
Definition replicas_pods : gmap string Head :=
  {[ "pod0" :=
       _create_head_runtime
         [(fun i => _create_worker_runtime ("pod0/" +:+ pretty i) None) <$> seq 0 10]
         "head" ANY None None ]}.

Definition shards_pods (polling_arg : PollingType) : gmap string Head :=
  {[ "pod0" :=
       _create_head_runtime
         ((fun i => [_create_worker_runtime ("pod0/shard/" +:+ pretty i) None]) <$> seq 0 10)
         "head" polling_arg None None ]}.

(** The 20 inputs posted one document per request to the single-pod graph. *)
Definition run_test (d : gmap string Head) : list Request :=
  (gateway_stream graph_description d (client_post "/" async_inputs 1)).1.




(** The rank of a node in [order], a list of the nodes in which every edge
    goes forward. *)
Definition position (order : list string) (p : string) : nat :=
  default (length order) (fst <$> list_find (fun x => x = p) order).

(** The invariants of a topology graph, in a form that can be evaluated. *)
Definition check_topology (order : list string) (g : Topology) : Prop :=
  NoDup g.*1 /\
  Forall (fun e => (position order e.1 < position order e.2)%nat) (edges g) /\
  Forall (fun e => e.2 = end_gateway \/ e.2 ∈ pods g) (edges g) /\
  Forall (fun e => e.1 <> end_gateway) (edges g) /\
  Forall (fun p => preds g p <> []) (pods g).

#[local] Instance check_topology_dec order g : Decision (check_topology order g).
Proof. unfold check_topology. apply _. Defined.


(** ** Further notions on [jina/serve/stream/helper.py] *)

(** The values a synchronous iterator delivers through [__anext__]: those
    before its first [None]. *)
Fixpoint before_None (vs : list PyValue) : list PyValue :=
  match vs with
  | [] => []
  | PyNone :: _ => []
  | v :: vs' => v :: before_None vs'
  end.

(** How an [async for] over the iterator ends. *)
Inductive LoopEnd :=
| Exhausted                  (* [StopAsyncIteration]: the loop is left normally *)
| Raised (e : Exception)     (* any other exception leaves the loop *)
| Blocked                    (* [__anext__] does not return *)
| Running.                   (* more rounds to go *)

(** [async for request in AsyncRequestsIterator(...)]: [__aiter__] returns
    the object itself, and [__anext__] is awaited for every round until it
    raises [StopAsyncIteration].  No other task runs, so a call that has
    not returned after the four steps from [Line63] to the end of [Line72]
    or [Line86] never returns. *)
Fixpoint async_for (rounds : nat) (self : AsyncRequestsIterator) : list PyValue * LoopEnd :=
  match rounds with
  | O => ([], Running)
  | S rounds' =>
      let c := __anext__ 4 [] self in
      match c.2 with
      | Finished (inl v) =>
          let '(vs, e) := async_for rounds' c.1 in (v :: vs, e)
      | Finished (inr StopAsyncIteration) => ([], Exhausted)
      | Finished (inr e) => ([], Raised e)
      | _ => ([], Blocked)
      end
  end.

(** The same object seen as an [Iterator] only. *)
Definition as_Iterator (self : AsyncRequestsIterator) : AsyncRequestsIterator :=
  with_iterator self
    {| is_Iterator := true; is_AsyncIterator := false;
       pending := pending (iterator self) |}.

(** The same iterator constructed with another [prefetch]. *)
Definition with_prefetch (P : Z) (self : AsyncRequestsIterator) : AsyncRequestsIterator :=
  {| iterator := iterator self;
     _request_counter := _request_counter self;
     _prefetch := P |}.

(** Two runs of [__anext__] that differ only in the [isinstance] answer for
    [AsyncIterator], on an object that is an [Iterator]. *)
Definition same_but_kind (c1 c2 : Coroutine) : Prop :=
  c1.2 = c2.2 /\
  _request_counter c1.1 = _request_counter c2.1 /\
  _prefetch c1.1 = _prefetch c2.1 /\
  pending (iterator c1.1) = pending (iterator c2.1) /\
  is_Iterator (iterator c1.1) = true /\ is_Iterator (iterator c2.1) = true.

(** Two runs of [__anext__] that differ only in a [prefetch] that is not
    positive. *)
Definition same_but_prefetch (c1 c2 : Coroutine) : Prop :=
  c1.2 = c2.2 /\
  _request_counter c1.1 = _request_counter c2.1 /\
  iterator c1.1 = iterator c2.1 /\
  _prefetch c1.1 <= 0 /\ _prefetch c2.1 <= 0 /\
  c1.2 <> Line64 /\ c1.2 <> Line65.

(** One call consumes at most one value of the underlying iterator, and
    only at [Line66]. *)
Definition consumed (vs : list PyValue) (c : Coroutine) : Prop :=
  match c.2 with
  | Line63 | Line64 | Line65 | Line66 => pending (iterator c.1) = vs
  | _ => pending (iterator c.1) = vs \/ pending (iterator c.1) = drop 1 vs
  end.

(** ** Further notions on the tests *)

(** [connection_list_dict[k].append(v)] on a [defaultdict(list)]. *)
Definition defaultdict_append (d : gmap nat (list string)) (k : nat) (v : string)
  : gmap nat (list string) :=
  <[k := default [] (d !! k) ++ [v]]> d.

(** [f'127.0.0.1:{worker_port}'] *)
Definition worker_address (worker_port : nat) : string :=
  "127.0.0.1:" +:+ pretty worker_port.

(** The loop of [test_runtimes_replicas] (lines 304-317), every worker
    appended under key [0]; [ports] are the ports the generator hands out,
    one per round. *)
Definition replicas_connection_list_dict (ports : list nat) : gmap nat (list string) :=
  foldl (fun d port => defaultdict_append d 0 (worker_address port)) ∅ ports.

(** The loop of [test_runtimes_shards] (lines 230-243), of
    [test_runtimes_with_executor] (lines 386-396) and of
    [test_runtimes_with_replicas_advance_faster] (lines 512-526), worker [i]
    appended under key [i]. *)
Definition shards_connection_list_dict (ports : list nat) : gmap nat (list string) :=
  foldl (fun d ip => defaultdict_append d ip.1 (worker_address ip.2)) ∅ (imap pair ports).

(** ** [jina/helloworld/fashion/helper.py] *)

Inductive PyError :=
| ValueError
| IndexError
| KeyError.

(** The [np.uint8] value of a byte of the file. *)
Definition uint8 (b : Byte.byte) : Z := Z.of_N (Byte.to_N b).

(** [a.reshape([-1, n])] on a flat array: its rows of [n] elements. *)
Fixpoint reshape_go {A} (fuel n : nat) (l : list A) : list (list A) :=
  match fuel, l with
  | O, _ | _, [] => []
  | S fuel', _ => take n l :: reshape_go fuel' n (drop n l)
  end.

Definition reshape {A} (n : nat) (l : list A) : list (list A) :=
  reshape_go (length l) n l.

(** [load_mnist], on the content [fp.read()] of the unzipped file:
    [np.frombuffer(..., dtype=np.uint8, offset=16).reshape([-1, 28, 28])].
    [frombuffer] raises [ValueError] when the offset is beyond the buffer,
    [reshape] when the size is not a multiple of [28 * 28]. *)
Definition load_mnist (buf : list Byte.byte) : list (list (list Z)) + PyError :=
  if (length buf <? 16)%nat then inr ValueError
  else
    let flat := uint8 <$> drop 16 buf in
    if (length flat mod (28 * 28) =? 0)%nat
    then inl (reshape 28 <$> reshape (28 * 28) flat)
    else inr ValueError.

(** [load_labels]: [np.frombuffer(..., dtype=np.uint8, offset=8).reshape([-1, 1])]. *)
Definition load_labels (buf : list Byte.byte) : list (list Z) + PyError :=
  if (length buf <? 8)%nat then inr ValueError
  else inl (reshape 1 (uint8 <$> drop 8 buf)).

(** The data paths dictionary [target], reduced to the ['data'] entries the
    generators read; [None] stands for a missing key. *)
Record Target := mkTarget {
  index_data : option (list (list (list Z)));          (* target['index']['data'] *)
  query_data : option (list (list (list Z)));          (* target['query']['data'] *)
  query_labels_data : option (list (list Z))           (* target['query-labels']['data'] *)
}.

(** The documents the generators yield: [Document(content=x_color)] and its tags. *)
Record ImageDocument := mkImageDocument {
  content : list (list (list Z));
  image_tags : gmap string nat
}.

(** [255 - x], element by element.  On the [np.uint8] arrays [load_mnist]
    returns the difference stays within 0..255, so nothing wraps around. *)
Definition invert (x : Z) : Z := 255 - x.

(** [x_blackwhite = 255 - data[i]], element by element. *)
Definition x_blackwhite (image : list (list Z)) : list (list Z) :=
  (fun row : list Z => invert <$> row) <$> image.

(** [np.stack((x_blackwhite,) * 3, axis=-1)] *)
Definition x_color (x : list (list Z)) : list (list (list Z)) :=
  (fun row : list Z => (fun v => [v; v; v]) <$> row) <$> x.

(** [index_generator]: the documents yielded, and the exception that ends
    the generator if one is raised. *)
Fixpoint index_generator_loop (target : Target) (ids : list nat)
  : list ImageDocument * option PyError :=
  match ids with
  | [] => ([], None)
  | internal_doc_id :: ids' =>
      match index_data target with
      | None => ([], Some KeyError)
      | Some data =>
          match data !! internal_doc_id with
          | None => ([], Some IndexError)
          | Some image =>
              let d := {| content := x_color (x_blackwhite image);
                          image_tags := {["id" := internal_doc_id]} |} in
              let '(ds, e) := index_generator_loop target ids' in (d :: ds, e)
          end
      end
  end.

Definition index_generator (num_docs : Z) (target : Target)
  : list ImageDocument * option PyError :=
  index_generator_loop target (seq 0 (Z.to_nat num_docs)).

(** [query_generator]; [randint k] is what [random.randint(0, num_data - 1)]
    returns in round [k]. *)
Fixpoint query_generator_loop (target : Target) (randint : nat -> nat) (rounds : list nat)
  : list ImageDocument * option PyError :=
  match rounds with
  | [] => ([], None)
  | k :: rounds' =>
      match query_labels_data target with
      | None => ([], Some KeyError)
      | Some labels =>
          let num_data := length labels in
          if (num_data =? 0)%nat then ([], Some ValueError)
          else
            let idx := randint k in
            match query_data target with
            | None => ([], Some KeyError)
            | Some data =>
                match data !! idx with
                | None => ([], Some IndexError)
                | Some image =>
                    let d := {| content := x_color (x_blackwhite image);
                                image_tags := ∅ |} in
                    let '(ds, e) := query_generator_loop target randint rounds' in
                    (d :: ds, e)
                end
            end
      end
  end.

Definition query_generator (num_docs : Z) (target : Target) (randint : nat -> nat)
  : list ImageDocument * option PyError :=
  query_generator_loop target randint (seq 0 (Z.to_nat num_docs)).

(** The image a document was made from, read back from its first channel. *)
Definition first_channel (c : list (list (list Z))) : list (list Z) :=
  (fun row : list (list Z) => (fun px => invert (default 0 (head px))) <$> row) <$> c.

(** The characters the f-strings of [print_result] embed. *)
Definition dq : string := String (Ascii.ascii_of_nat 34) EmptyString.
Definition nl : string := String (Ascii.ascii_of_nat 10) EmptyString.

Section PrintResult.
(** How Python formats a score inside the f-string, and the type of
    evaluation values: floats, which are left open. *)
Context {Score Value : Type}.
Variable repr : Score -> string.

(** A match [kk]: [cosine_value] is what [kk.scores["cosine"].value]
    evaluates to. *)
Record MatchDocument := mkMatch {
  match_uri : string;
  cosine_value : Score
}.

Record ResultDocument := mkResultDocument {
  uri : string;
  matches : list MatchDocument;
  evaluations : list (string * Value)      (* [d.evaluations.items()] *)
}.

(** The module's globals. *)
Record Globals := mkGlobals {
  result_html : list string;
  top_k : nat;
  evaluation_value : gmap string Value
}.

(** [f'<tr><td><img src="{vi}"/></td><td>'] *)
Definition row_open (vi : string) : string :=
  "<tr><td><img src=" +:+ dq +:+ vi +:+ dq +:+ "/></td><td>".

(** [f'<img src="{kmi}" style="opacity:{kk.scores["cosine"].value}"/>'] *)
Definition match_img (kk : MatchDocument) : string :=
  "<img src=" +:+ dq +:+ match_uri kk +:+ dq +:+ " style=" +:+ dq +:+ "opacity:"
    +:+ repr (cosine_value kk) +:+ dq +:+ "/>".

Definition row_close : string := "</td></tr>" +:+ nl.

(** The loop over [d.matches] (lines 71-75). *)
Definition print_matches (html : list string) (ms : list MatchDocument) : list string :=
  foldl (fun html kk => html ++ [match_img kk]) html ms.

(** The loop over [d.evaluations.items()] (lines 80-81). *)
Definition update_evaluations (ev : gmap string Value) (items : list (string * Value))
  : gmap string Value :=
  foldl (fun acc kv => <[kv.1 := kv.2]> acc) ev items.

(** The body of the loop over [resp.docs] (lines 68-81). *)
Definition print_doc (g : Globals) (d : ResultDocument) : Globals :=
  let html := result_html g ++ [row_open (uri d)] in
  let k := length (matches d) in
  let html := print_matches html (matches d) in
  let html := html ++ [row_close] in
  {| result_html := html;
     top_k := k;
     evaluation_value := update_evaluations (evaluation_value g) (evaluations d) |}.

(** [print_result(resp)], on [resp.docs]. *)
Definition print_result (g : Globals) (docs : list ResultDocument) : Globals :=
  foldl print_doc g docs.

(** The entries one document adds to [result_html]. *)
Definition rows_of (d : ResultDocument) : list string :=
  row_open (uri d) :: (match_img <$> matches d) ++ [row_close].
End PrintResult.

(** * Properties *)

(** ** The event loop *)

Section EventLoopFacts.
Context {State Other : Type}.
Variable step : State -> State.
Variable is_suspended : State -> bool.
Variable interfere : Other -> State -> State.

Lemma run_running n sched s :
  is_suspended s = false ->
  run step is_suspended interfere (S n) sched s
  = run step is_suspended interfere n sched (step s).
Proof. intros H. simpl. by rewrite H. Qed.

Lemma run_resumed n o sched s :
  is_suspended s = true ->
  run step is_suspended interfere (S n) (o :: sched) s
  = run step is_suspended interfere n sched (step (interfere o s)).
Proof. intros H. simpl. by rewrite H. Qed.

Lemma run_alone n s :
  run step is_suspended interfere (S n) [] s
  = run step is_suspended interfere n [] (step s).
Proof. simpl. by destruct (is_suspended s). Qed.

Lemma run_invariant (Inv : State -> Prop) :
  (forall s, Inv s -> Inv (step s)) ->
  (forall o s, Inv s -> is_suspended s = true -> Inv (interfere o s)) ->
  forall n sched s, Inv s -> Inv (run step is_suspended interfere n sched s).
Proof.
  intros Hstep Hint n. induction n as [|n IH]; intros sched s Hs; simpl; [done|].
  destruct (is_suspended s) eqn:Hsusp.
  - destruct sched as [|o sched]; apply IH; auto.
  - apply IH; auto.
Qed.

Lemma run_add n m sched s :
  exists sched',
    run step is_suspended interfere (n + m) sched s
    = run step is_suspended interfere m sched' (run step is_suspended interfere n sched s).
Proof.
  revert sched s. induction n as [|n IH]; intros sched s; simpl.
  - by exists sched.
  - destruct (is_suspended s); [destruct sched as [|o sched]|]; apply IH.
Qed.

Lemma run_fixpoint n sched s :
  step s = s -> (forall o, step (interfere o s) = s) ->
  run step is_suspended interfere n sched s = s.
Proof.
  intros Hs Ho. revert sched. induction n as [|n IH]; intros sched; simpl; [done|].
  destruct (is_suspended s); [destruct sched as [|o sched]|];
    rewrite ?Ho, ?Hs; apply IH.
Qed.
End EventLoopFacts.

Arguments run : simpl never.

(** ** [AsyncRequestsIterator.__anext__] *)

(** Case analysis on the dispatch of [Line66]: the two [isinstance] tests
    and whether the underlying iterator has a value left. *)
Ltac dispatch_cases self :=
  unfold iterator__next__, iter_next, iter_anext;
  destruct (is_Iterator (iterator self));
  [|destruct (is_AsyncIterator (iterator self))];
  destruct (pending (iterator self)); simpl.

Lemma anext_step_prefetch self f : _prefetch (fst (anext_step self f)) = _prefetch self.
Proof.
  destruct f as [| | | |[[]|]|?|?]; simpl; try done.
  - by destruct (0 <? _); simpl.
  - destruct (_request_counter self); [destruct (_ <=? _)|]; done.
  - by dispatch_cases self.
Qed.

Lemma anext_step_counter self f :
  _request_counter (fst (anext_step self f)) = _request_counter self.
Proof.
  destruct f as [| | | |[[]|]|?|?]; simpl; try done.
  - by destruct (0 <? _); simpl.
  - destruct (_request_counter self) eqn:E; [destruct (_ <=? _)|]; done.
  - by dispatch_cases self.
Qed.

(** The iterator is only touched by the step taken at [Line66]. *)
Lemma anext_step_iterator self f :
  f <> Line66 -> iterator (fst (anext_step self f)) = iterator self.
Proof.
  destruct f as [| | | |[[]|]|?|?]; simpl; try done.
  - by destruct (0 <? _); simpl.
  - destruct (_request_counter self); [destruct (_ <=? _)|]; done.
Qed.

Lemma below_prefetch_step P c : 0 < P -> below_prefetch P c -> below_prefetch P (coroutine_step c).
Proof.
  intros HP [Hpre Hinv]. destruct c as [self f]. simpl in *.
  split; [unfold coroutine_step; simpl; by rewrite anext_step_prefetch|].
  unfold coroutine_step; simpl.
  destruct f as [| | | |[[]|]|?|?]; simpl; try done.
  - destruct (0 <? _prefetch self) eqn:E; simpl; [done|lia].
  - destruct (_request_counter self) as [rc|] eqn:Hrc; [|done].
    destruct (_prefetch self <=? count rc) eqn:E; simpl; [done|].
    intros _. exists rc. split; [done|lia].
  - by dispatch_cases self.
Qed.

Lemma below_prefetch_interfere P v c :
  below_prefetch P c -> coroutine_suspended c = true -> below_prefetch P (coroutine_interfere v c).
Proof.
  intros [Hpre _] Hs. destruct c as [self f]. split; [done|].
  simpl. intros ->. done.
Qed.

Lemma anext_below_prefetch P n sched self :
  0 < P -> _prefetch self = P -> below_prefetch P (__anext__ n sched self).
Proof.
  intros HP Hpre. unfold __anext__. apply run_invariant.
  - intros s. by apply below_prefetch_step.
  - intros o s. apply below_prefetch_interfere.
  - split; done.
Qed.

(** The steps of the waiting loop. *)
Lemma step_Line63_on self :
  0 < _prefetch self -> coroutine_step (self, Line63) = (self, Line64).
Proof. intros H. unfold coroutine_step; simpl. destruct (0 <? _prefetch self) eqn:E; [done|lia]. Qed.

Lemma step_Line63_off self :
  _prefetch self <= 0 -> coroutine_step (self, Line63) = (self, Line66).
Proof. intros H. unfold coroutine_step; simpl. destruct (0 <? _prefetch self) eqn:E; [lia|done]. Qed.

Lemma step_Line64_wait self rc :
  _request_counter self = Some rc -> _prefetch self <= count rc ->
  coroutine_step (self, Line64) = (self, Line65).
Proof.
  intros Hrc H. unfold coroutine_step; simpl. rewrite Hrc.
  destruct (_prefetch self <=? count rc) eqn:E; [done|lia].
Qed.

Lemma step_Line64_go self rc :
  _request_counter self = Some rc -> count rc < _prefetch self ->
  coroutine_step (self, Line64) = (self, Line66).
Proof.
  intros Hrc H. unfold coroutine_step; simpl. rewrite Hrc.
  destruct (_prefetch self <=? count rc) eqn:E; [lia|done].
Qed.

Lemma waiting_run P it n : 0 < P ->
  forall sched c, Forall (fun v => P <= v) sched -> waiting P it c ->
    waiting P it (corun n sched c).
Proof.
  intros HP. induction n as [|n IH]; intros sched [self f] Hs Hw; [done|].
  destruct Hw as (Hit & Hpre & Hf & rc & Hrc & Hc). simpl in *.
  destruct Hf as [-> | [-> | ->]].
  - rewrite run_running, step_Line63_on by (done || lia).
    apply IH; [done|]. repeat split; simpl; eauto.
  - rewrite run_running by done. erewrite step_Line64_wait by (done || lia).
    apply IH; [done|]. repeat split; simpl; eauto.
  - destruct sched as [|v sched].
    + rewrite run_alone. apply IH; [done|]. repeat split; simpl; eauto.
    + rewrite run_resumed by done. inversion Hs; subst.
      apply IH; [done|]. repeat split; simpl; eauto.
      rewrite Hrc. by eexists.
Qed.

(** Once some observation of the counter is below the prefetch value, the
    waiting loop is left for [Line66], with the iterator untouched. *)
Lemma waiting_ends P sched :
  forall self rc, _prefetch self = P -> _request_counter self = Some rc ->
    Exists (fun v => v < P) (count rc :: sched) ->
    exists n sched' self',
      iterator self' = iterator self /\ _prefetch self' = P /\
      _request_counter self' <> None /\
      forall m, corun (n + m)%nat sched (self, Line64) = corun m sched' (self', Line66).
Proof.
  induction sched as [|v sched IH]; intros self rc Hpre Hrc Hex.
  - apply Exists_cons in Hex as [Hlt|Hex]; [|by apply Exists_nil in Hex].
    exists 1%nat, [], self. repeat split; try done; [by rewrite Hrc|]. intros m.
    rewrite Nat.add_1_l, run_alone. by erewrite step_Line64_go by (done || lia).
  - destruct (decide (count rc < P)) as [Hlt|Hge].
    + exists 1%nat, (v :: sched), self. repeat split; try done; [by rewrite Hrc|]. intros m.
      rewrite Nat.add_1_l, run_running by done.
      by erewrite step_Line64_go by (done || lia).
    + apply Exists_cons in Hex as [Hlt|Hex]; [done|].
      destruct (IH (write_count v self) {| count := v |})
        as (n & sched' & self' & Hit & Hp & Hc & Hrun).
      * done.
      * simpl. by rewrite Hrc.
      * done.
      * exists (S (S n)), sched', self'. repeat split; try done. intros m.
        replace (S (S n) + m)%nat with (S (S (n + m))) by lia.
        rewrite run_running by done.
        erewrite step_Line64_wait by (done || lia).
        rewrite run_resumed by done. apply Hrun.
Qed.

(** From [Line63], a call that is let through reaches [Line66] with the iterator untouched. *)
Lemma lets_through_reaches_Line66 self sched :
  lets_through (_prefetch self) (_request_counter self) sched ->
  exists n sched' self',
    iterator self' = iterator self /\
    forall m, corun (n + m)%nat sched (self, Line63) = corun m sched' (self', Line66).
Proof.
  intros Hopen.
  destruct (decide (0 < _prefetch self)) as [Hpos|Hoff].
  - destruct Hopen as [?|(rc & Hrc & Hex)]; [lia|].
    destruct (waiting_ends (_prefetch self) sched self rc)
      as (n & sched' & self' & Hit & _ & _ & Hrun); try done.
    exists (S n), sched', self'. split; [done|]. intros m.
    replace (S n + m)%nat with (S (n + m)) by lia.
    rewrite run_running by done. rewrite step_Line63_on by done. apply Hrun.
  - exists 1%nat, sched, self. split; [done|]. intros m.
    rewrite Nat.add_1_l, run_running by done. by rewrite step_Line63_off by lia.
Qed.

Lemma finished_stays n sched self r :
  corun n sched (self, Finished r) = (self, Finished r).
Proof. revert sched. induction n; intros sched; simpl; [done|apply IHn]. Qed.

(** What the call delivers once control is at [Line66]: two more steps. *)
Lemma step_Line66_sync self :
  is_Iterator (iterator self) = true ->
  coroutine_step (self, Line66)
  = ((iterator__next__ self).2, Line72 (iterator__next__ self).1).
Proof.
  intros H. unfold coroutine_step; simpl. rewrite H.
  by destruct (iterator__next__ self).
Qed.

Lemma step_Line66_async self :
  is_Iterator (iterator self) = false -> is_AsyncIterator (iterator self) = true ->
  coroutine_step (self, Line66)
  = (with_iterator self (iter_anext (iterator self)).2, Line86 (iter_anext (iterator self)).1).
Proof.
  intros H1 H2. unfold coroutine_step; simpl. rewrite H1, H2.
  by destruct (iter_anext (iterator self)).
Qed.

Lemma step_Line66_neither self :
  is_Iterator (iterator self) = false -> is_AsyncIterator (iterator self) = false ->
  coroutine_step (self, Line66) = (self, Finished (inr UnboundLocalError)).
Proof. intros H1 H2. unfold coroutine_step; simpl. by rewrite H1, H2. Qed.

(** Resuming from an [await] whose future is done: the counter may have
    been written meanwhile, the iterator and the outcome are not affected. *)
Lemma resume_future sched self f :
  suspended f = true ->
  exists self', iterator self' = iterator self /\
    corun 1 sched (self, f) = (self', (coroutine_step (self, f)).2) /\
    (coroutine_step (self, f)).2 = (anext_step self f).2.
Proof.
  intros Hf. destruct sched as [|v sched].
  - rewrite run_alone. exists (coroutine_step (self, f)).1. split.
    + unfold coroutine_step; simpl. apply anext_step_iterator. by destruct f.
    + split; [|done]. by destruct (coroutine_step (self, f)).
  - rewrite run_resumed by done.
    exists (coroutine_step (coroutine_interfere v (self, f))).1. split.
    + unfold coroutine_step; simpl. rewrite anext_step_iterator; [done|by destruct f].
    + split; [|done]. unfold run.
      destruct f as [| | | |[[]|]|?|?]; done.
Qed.

Lemma dispatch_sync_none self sched rest :
  is_Iterator (iterator self) = true -> pending (iterator self) = PyNone :: rest ->
  exists self', iterator self' = advance (iterator self) rest /\
    corun 2 sched (self, Line66) = (self', Finished (inr StopAsyncIteration)).
Proof.
  intros Hsync Hp. rewrite run_running, step_Line66_sync by done.
  unfold iterator__next__, iter_next. rewrite Hp. simpl.
  destruct (resume_future sched (with_iterator self (advance (iterator self) rest))
              (Line72 (inl PyNone))) as (self' & Hit & Hrun & _); [done|].
  exists self'. split; [done|]. by rewrite Hrun.
Qed.

Lemma dispatch_sync_exhausted self sched :
  is_Iterator (iterator self) = true -> pending (iterator self) = [] ->
  exists self', iterator self' = iterator self /\
    corun 2 sched (self, Line66) = (self', Finished (inr StopAsyncIteration)).
Proof.
  intros Hsync Hp. rewrite run_running, step_Line66_sync by done.
  unfold iterator__next__, iter_next. rewrite Hp. simpl.
  destruct (resume_future sched (with_iterator self (iterator self))
              (Line72 (inl PyNone))) as (self' & Hit & Hrun & _); [done|].
  exists self'. split; [done|]. by rewrite Hrun.
Qed.

Lemma dispatch_request self sched r rest :
  is_Iterator (iterator self) || is_AsyncIterator (iterator self) = true ->
  pending (iterator self) = PyRequest r :: rest ->
  exists self', iterator self' = advance (iterator self) rest /\
    corun 2 sched (self, Line66) = (self', Finished (inl (PyRequest r))).
Proof.
  intros Hkind Hp. rewrite run_running by done.
  destruct (is_Iterator (iterator self)) eqn:Hsync.
  - rewrite step_Line66_sync by done.
    unfold iterator__next__, iter_next. rewrite Hp. simpl.
    destruct (resume_future sched (with_iterator self (advance (iterator self) rest))
                (Line72 (inl (PyRequest r)))) as (self' & Hit & Hrun & _); [done|].
    exists self'. split; [done|]. by rewrite Hrun.
  - simpl in Hkind. rewrite step_Line66_async by done.
    unfold iter_anext. rewrite Hp. simpl.
    destruct (resume_future sched (with_iterator self (advance (iterator self) rest))
                (Line86 (inl (PyRequest r)))) as (self' & Hit & Hrun & _); [done|].
    exists self'. split; [done|]. by rewrite Hrun.
Qed.

Lemma dispatch_neither self sched :
  is_Iterator (iterator self) = false -> is_AsyncIterator (iterator self) = false ->
  corun 1 sched (self, Line66) = (self, Finished (inr UnboundLocalError)).
Proof.
  intros Hsync Hasync. rewrite run_running by done.
  by rewrite step_Line66_neither.
Qed.

(** Composition of a run that reaches [Line66] with what follows: the
    outcome is reached and kept. *)
Lemma corun_finishes n k sched sched' c self' self'' res :
  (forall m, corun (n + m)%nat sched c = corun m sched' (self', Line66)) ->
  corun k sched' (self', Line66) = (self'', Finished res) ->
  forall m, (n + k <= m)%nat -> corun m sched c = (self'', Finished res).
Proof.
  intros H1 H2 m Hm. replace m with (n + (k + (m - (n + k))))%nat by lia.
  rewrite H1.
  destruct (run_add coroutine_step coroutine_suspended coroutine_interfere
              k (m - (n + k)) sched' (self', Line66)) as [sched'' ->].
  rewrite H2. apply finished_stays.
Qed.

Lemma skips_waiting_run n sched self :
  _prefetch self <= 0 -> skips_waiting (__anext__ n sched self).
Proof.
  intros Hoff. unfold __anext__. apply run_invariant.
  - intros [s f] (Hp & H64 & H65). unfold skips_waiting, coroutine_step. simpl in *.
    rewrite anext_step_prefetch. split; [done|].
    destruct f as [| | | |[[]|]|?|?]; simpl; try done.
    + destruct (0 <? _prefetch s) eqn:E; [lia|done].
    + by dispatch_cases s.
  - by intros v [s f] (Hp & H64 & H65) _.
  - done.
Qed.

Lemma stopping_run n sched c : stopping c -> stopping (corun n sched c).
Proof.
  apply run_invariant.
  - intros [s f] [Hs Hf]. unfold stopping, coroutine_step in *. simpl in *.
    destruct f as [| | | |[[]|]|?|[|[]]]; simpl; try done.
    + by destruct (0 <? _prefetch s).
    + destruct (_request_counter s); [destruct (_ <=? _)|]; done.
    + rewrite Hs. unfold iterator__next__, iter_next.
      destruct (pending (iterator s)) as [|[] ?]; done.
  - by intros v [s f] [Hs Hf] _.
Qed.

(** The two [isinstance] tests do not change as the iterator advances. *)
Lemma anext_step_kind self f :
  is_Iterator (iterator (anext_step self f).1) = is_Iterator (iterator self) /\
  is_AsyncIterator (iterator (anext_step self f).1) = is_AsyncIterator (iterator self).
Proof.
  destruct f as [| | | |[[]|]|?|?]; simpl; try done.
  - by destruct (0 <? _prefetch self).
  - destruct (_request_counter self); [destruct (_ <=? _)|]; done.
  - unfold iterator__next__, iter_next, iter_anext.
    destruct (is_Iterator (iterator self)) eqn:E1;
      [|destruct (is_AsyncIterator (iterator self)) eqn:E2];
      destruct (pending (iterator self)); simpl; rewrite ?E1, ?E2; done.
Qed.

Lemma unsupported_run it n sched c :
  is_Iterator it = false -> is_AsyncIterator it = false ->
  unsupported it c -> unsupported it (corun n sched c).
Proof.
  intros Hsync Hasync. apply run_invariant.
  - intros [s f] [Hit Hf]. unfold unsupported, coroutine_step in *. simpl in *.
    destruct f as [| | | |[[]|]|?|[|[]]]; simpl; try done.
    + by destruct (0 <? _prefetch s).
    + destruct (_request_counter s); [destruct (_ <=? _)|]; done.
    + by rewrite Hit, Hsync, Hasync.
  - by intros v [s f] [Hit Hf] _.
Qed.

Lemma supported_run n sched c : supported c -> supported (corun n sched c).
Proof.
  apply run_invariant.
  - intros [s f] [Hk Hf]. unfold supported, coroutine_step in *. simpl in *.
    destruct (anext_step_kind s f) as [-> ->]. split; [done|].
    destruct f as [| | | |[[]|]|[]|?]; simpl; try done.
    + by destruct (0 <? _prefetch s).
    + destruct (_request_counter s); [destruct (_ <=? _)|]; done.
    + revert Hk. by dispatch_cases s.
  - by intros v [s f] [Hk Hf] _.
Qed.

(** ** The admission loop *)

Lemma streamer_inv_intro P self loop adm rc :
  _prefetch self = P -> _request_counter self = Some rc -> 0 <= count rc <= P ->
  (forall f, loop = Iterating f -> past_waiting f = true -> count rc < P) ->
  streamer_inv P {| requests_iter := self; at_loop := loop; admitted := adm |}.
Proof.
  intros Hpre Hrc Hb Hg. split; [done|]. exists rc. repeat split; try done; try lia.
  simpl. destruct loop; [|done..]. by apply Hg.
Qed.

Lemma streamer_inv_step P s : 0 < P -> streamer_inv P s -> streamer_inv P (streamer_step s).
Proof.
  intros HP (Hpre & rc & Hrc & Hbound & Hopen).
  destruct s as [self loop adm]. simpl in *.
  unfold streamer_step; simpl.
  destruct loop as [f| |e];
    [|by eapply streamer_inv_intro..].
  destruct f as [| | | |[[]|]|?|[[]|[]]]; simpl in *;
    try (by eapply streamer_inv_intro; eauto; intros ? [= <-]; simpl; eauto).
  - destruct (0 <? _prefetch self) eqn:E; simpl; [|lia].
    eapply streamer_inv_intro; eauto. by intros ? [= <-].
  - rewrite Hrc. destruct (_prefetch self <=? count rc) eqn:E; simpl.
    + eapply streamer_inv_intro; eauto. by intros ? [= <-].
    + eapply streamer_inv_intro; eauto. intros ? [= <-] _. lia.
  - specialize (Hopen eq_refl).
    dispatch_cases self; eapply streamer_inv_intro; eauto.
  - specialize (Hopen eq_refl).
    apply (streamer_inv_intro _ _ _ _ {| count := Z.succ (count rc) |}); simpl.
    + done.
    + by rewrite Hrc.
    + lia.
    + by intros ? [= <-].
  - specialize (Hopen eq_refl).
    apply (streamer_inv_intro _ _ _ _ {| count := Z.succ (count rc) |}); simpl.
    + done.
    + by rewrite Hrc.
    + lia.
    + by intros ? [= <-].
Qed.

Lemma streamer_inv_complete P k s :
  streamer_inv P s -> streamer_suspended s = true -> streamer_inv P (complete k s).
Proof.
  intros (Hpre & rc & Hrc & Hbound & Hopen) _.
  destruct s as [self loop adm]. simpl in *. unfold complete; simpl.
  apply (streamer_inv_intro _ _ _ _ {| count := Z.max 0 (count rc - Z.of_nat k) |}); simpl.
  - done.
  - by rewrite Hrc.
  - lia.
  - intros f -> Hf. specialize (Hopen Hf). lia.
Qed.

Lemma stream_inv P n sched it :
  0 < P -> streamer_inv P (stream n sched (streamer_init it P)).
Proof.
  intros HP. unfold stream. apply run_invariant.
  - intros s. by apply streamer_inv_step.
  - intros k s. apply streamer_inv_complete.
  - apply (streamer_inv_intro _ _ _ _ RequestsCounter_new); simpl; try done; lia.
Qed.

(** The admission loop on three requests with [prefetch = 2]: without
    completions it stalls in the waiting loop with two requests in flight;
    as requests complete the third is admitted and the end of the stream is
    reached. *)
Example stream_back_pressure :
  let it := mkIter true false
              ((fun i => PyRequest (mkRequest i "/" [] ∅ [])) <$> [0; 1; 2]%nat) in
  (let s := stream 30 [] (streamer_init it 2) in
   in_flight s = 2 /\ length (admitted s) = 2%nat /\ at_loop s = Iterating Line65) /\
  (let s := stream 40 [0; 0; 0; 0; 1; 0; 1]%nat (streamer_init it 2) in
   in_flight s = 1 /\ length (admitted s) = 3%nat /\ at_loop s = EndOfStream).
Proof. cbv zeta. repeat match goal with |- _ /\ _ => split end; vm_compute; reflexivity. Qed.

(** ** Claims on the request iterator *)

(** C1: for every prefetch value [P > 0] and every request counter,
    [__anext__] does not produce the next request while the counter is at or
    above [P]: as long as every observation of the counter is [>= P] the
    underlying iterator is left untouched and the call has not returned;
    whenever the step that consults the underlying iterator is about to run,
    the counter reads below [P]; as soon as an observation is below [P] the
    call moves on to that step.  Hence, in the Gateway's admission loop, the
    number of requests in flight never exceeds [P]. *)
Theorem anext_respects_prefetch (P : Z) (it : ClientIterator) :
  0 < P ->
  (forall rc sched n,
      Forall (fun v => P <= v) (count rc :: sched) ->
      let c := __anext__ n sched (mkARI it (Some rc) P) in
      iterator c.1 = it /\ pulls c.1 c.2 = false /\ forall r, c.2 <> Finished r) /\
  (forall rc sched n,
      let c := __anext__ n sched (mkARI it (Some rc) P) in
      pulls c.1 c.2 = true ->
      exists rc', _request_counter c.1 = Some rc' /\ count rc' < P) /\
  (forall rc sched,
      Exists (fun v => v < P) (count rc :: sched) ->
      exists n, let c := __anext__ n sched (mkARI it (Some rc) P) in
                c.2 = Line66 /\ iterator c.1 = it) /\
  (forall sched n, 0 <= in_flight (stream n sched (streamer_init it P)) <= P).
Proof.
  intros HP. repeat split.
  - destruct (waiting_run P it n HP sched (mkARI it (Some rc) P, Line63)) as (Hit & _).
    + by inversion H.
    + repeat split; simpl; eauto. exists rc. split; [done|]. by inversion H.
    + done.
  - destruct (waiting_run P it n HP sched (mkARI it (Some rc) P, Line63)) as (_ & _ & Hf & _).
    + by inversion H.
    + repeat split; simpl; eauto. exists rc. split; [done|]. by inversion H.
    + unfold __anext__. by destruct Hf as [-> | [-> | ->]].
  - destruct (waiting_run P it n HP sched (mkARI it (Some rc) P, Line63)) as (_ & _ & Hf & _).
    + by inversion H.
    + repeat split; simpl; eauto. exists rc. split; [done|]. by inversion H.
    + unfold __anext__. intros r. by destruct Hf as [-> | [-> | ->]].
  - intros rc sched n c Hpull.
    destruct (anext_below_prefetch P n sched (mkARI it (Some rc) P) HP eq_refl) as [_ Hinv].
    apply Hinv. subst c. destruct (__anext__ n sched _) as [s f]. by destruct f.
  - intros rc sched Hex.
    destruct (waiting_ends P sched (mkARI it (Some rc) P) rc)
      as (n & sched' & self' & Hit & _ & _ & Hrun); try done.
    exists (S n). unfold __anext__.
    rewrite run_running, step_Line63_on by done.
    specialize (Hrun 0%nat). rewrite Nat.add_0_r in Hrun. rewrite Hrun.
    by split.
  - destruct (stream_inv P n sched it HP) as (_ & rc & Hrc & Hb & _).
    unfold in_flight. rewrite Hrc. lia.
  - destruct (stream_inv P n sched it HP) as (_ & rc & Hrc & Hb & _).
    unfold in_flight. rewrite Hrc. lia.
Qed.

Lemma anext_respects_prefetch_witness :
  let it := mkIter true false [PyRequest (mkRequest 0 "/" [] ∅ [])] in
  0 < 2 /\ 0 <= in_flight (stream 9 [1%nat] (streamer_init it 2)) <= 2.
Proof.
  intros it. split; [lia|].
  apply (anext_respects_prefetch 2 it); lia.
Defined.

(** C2: with [prefetch = 0], [__anext__] never waits on the request counter:
    whatever the counter holds (any count, or no counter at all) and whatever
    the other tasks write to it, the call never enters the waiting loop, and
    it pulls and returns the next request of the underlying iterator in its
    first three steps. *)
Theorem prefetch_zero_never_waits (it : ClientIterator) (rc : option RequestsCounter)
    (sched : list Z) (r : Request) (rest : list PyValue) :
  is_Iterator it || is_AsyncIterator it = true ->
  pending it = PyRequest r :: rest ->
  let self := mkARI it rc 0 in
  (forall n, (__anext__ n sched self).2 <> Line64 /\ (__anext__ n sched self).2 <> Line65) /\
  (forall n, (3 <= n)%nat ->
     (__anext__ n sched self).2 = Finished (inl (PyRequest r)) /\
     iterator (__anext__ n sched self).1 = advance it rest).
Proof.
  intros Hkind Hp self. split.
  - intros n. by destruct (skips_waiting_run n sched self) as (_ & ? & ?).
  - intros n Hn.
    destruct (dispatch_request self sched r rest Hkind Hp) as (self' & Hit & Hrun).
    assert (corun n sched (self, Line63) = (self', Finished (inl (PyRequest r)))) as Heq.
    { apply (corun_finishes 1 2 sched sched (self, Line63) self); [|done|lia].
      intros m. rewrite Nat.add_1_l, run_running by done.
      by rewrite step_Line63_off. }
    unfold __anext__. rewrite Heq. by split.
Qed.

Lemma prefetch_zero_never_waits_witness :
  let r := mkRequest 7 "/" [mkDocument "input0" "client0-Request" ∅] ∅ [] in
  let it := mkIter true false [PyRequest r; PyNone] in
  (__anext__ 3 [5; 6] (mkARI it (Some (mkCounter 1000)) 0)).2 = Finished (inl (PyRequest r)).
Proof.
  intros r it.
  apply (prefetch_zero_never_waits it (Some (mkCounter 1000)) [5; 6] r [PyNone]);
    [reflexivity | reflexivity | lia].
Defined.

(** C3: for every synchronous iterator wrapped by [AsyncRequestsIterator],
    when the underlying iterator is exhausted, [iterator__next__] turns its
    [StopIteration] into [None] and [__anext__] raises [StopAsyncIteration]:
    the call never delivers a value and never propagates [StopIteration],
    and once the back-pressure loop lets it through it ends, and stays, in
    [StopAsyncIteration] with the iterator unchanged. *)
Theorem exhausted_iterator_stops (self : AsyncRequestsIterator) (sched : list Z) :
  is_Iterator (iterator self) = true ->
  pending (iterator self) = [] ->
  (iter_next (iterator self)).1 = inr StopIteration /\
  (iterator__next__ self).1 = inl PyNone /\
  (forall n v, (__anext__ n sched self).2 <> Finished (inl v) /\
               (__anext__ n sched self).2 <> Finished (inr StopIteration)) /\
  (lets_through (_prefetch self) (_request_counter self) sched ->
   exists n, forall m, (n <= m)%nat ->
     (__anext__ m sched self).2 = Finished (inr StopAsyncIteration) /\
     iterator (__anext__ m sched self).1 = iterator self).
Proof.
  intros Hsync Hp. repeat split.
  - unfold iter_next. by rewrite Hp.
  - unfold iterator__next__, iter_next. by rewrite Hp.
  - destruct (stopping_run n sched (self, Line63)) as [_ Hf].
    { split; [done|]. simpl. by rewrite Hp. }
    unfold __anext__. intros Heq. by rewrite Heq in Hf.
  - destruct (stopping_run n sched (self, Line63)) as [_ Hf].
    { split; [done|]. simpl. by rewrite Hp. }
    unfold __anext__. intros Heq. by rewrite Heq in Hf.
  - intros Hopen.
    destruct (lets_through_reaches_Line66 self sched Hopen) as (n & sched' & self' & Hit & Hrun).
    destruct (dispatch_sync_exhausted self' sched') as (self'' & Hit' & Hfin).
    { by rewrite Hit. } { by rewrite Hit. }
    exists (n + 2)%nat. intros m Hm. unfold __anext__.
    rewrite (corun_finishes n 2 sched sched' (self, Line63) self' self'' _ Hrun Hfin m Hm).
    split; [done|]. simpl. by rewrite Hit', Hit.
Qed.

Lemma exhausted_iterator_stops_witness :
  let self := mkARI (mkIter true false []) (Some (mkCounter 4)) 2 in
  exists n, forall m, (n <= m)%nat ->
    (__anext__ m [3; 1] self).2 = Finished (inr StopAsyncIteration) /\
    iterator (__anext__ m [3; 1] self).1 = iterator self.
Proof.
  intros self.
  destruct (exhausted_iterator_stops self [3; 1] eq_refl eq_refl) as (_ & _ & _ & Hlive).
  apply Hlive. right. exists (mkCounter 4). split; [reflexivity|].
  simpl. do 2 apply Exists_cons_tl. apply Exists_cons_hd. lia.
Defined.

Example exhausted_iterator_run :
  (__anext__ 8 [3; 1] (mkARI (mkIter true false []) (Some (mkCounter 4)) 2)).2
  = Finished (inr StopAsyncIteration).
Proof. reflexivity. Qed.

(** C9: for every synchronous iterator wrapped by [AsyncRequestsIterator],
    if the next value the iterator yields is [None], [__anext__] raises
    [StopAsyncIteration]: [iterator__next__] hands over the same [None] as
    for an exhausted iterator, the call never delivers a value, and once the
    back-pressure loop lets it through it ends in [StopAsyncIteration] while
    the underlying iterator still holds the values that followed. *)
Theorem yielded_None_ends_stream (self : AsyncRequestsIterator) (sched : list Z)
    (rest : list PyValue) :
  is_Iterator (iterator self) = true ->
  pending (iterator self) = PyNone :: rest ->
  (iter_next (iterator self)).1 = inl PyNone /\
  (forall exhausted, pending (iterator exhausted) = [] ->
     (iterator__next__ exhausted).1 = (iterator__next__ self).1) /\
  (forall n v, (__anext__ n sched self).2 <> Finished (inl v)) /\
  (lets_through (_prefetch self) (_request_counter self) sched ->
   exists n, forall m, (n <= m)%nat ->
     (__anext__ m sched self).2 = Finished (inr StopAsyncIteration) /\
     pending (iterator (__anext__ m sched self).1) = rest).
Proof.
  intros Hsync Hp. repeat split.
  - unfold iter_next. by rewrite Hp.
  - intros exhausted He. unfold iterator__next__, iter_next. by rewrite He, Hp.
  - intros n v. destruct (stopping_run n sched (self, Line63)) as [_ Hf].
    { split; [done|]. simpl. by rewrite Hp. }
    unfold __anext__. intros Heq. by rewrite Heq in Hf.
  - intros Hopen.
    destruct (lets_through_reaches_Line66 self sched Hopen) as (n & sched' & self' & Hit & Hrun).
    destruct (dispatch_sync_none self' sched' rest) as (self'' & Hit' & Hfin).
    { by rewrite Hit. } { by rewrite Hit. }
    exists (n + 2)%nat. intros m Hm. unfold __anext__.
    rewrite (corun_finishes n 2 sched sched' (self, Line63) self' self'' _ Hrun Hfin m Hm).
    split; [done|]. simpl. by rewrite Hit'.
Qed.

Lemma yielded_None_ends_stream_witness :
  let r := mkRequest 1 "/" [mkDocument "input1" "late" ∅] ∅ [] in
  let self := mkARI (mkIter true false [PyNone; PyRequest r]) None 0 in
  exists n, forall m, (n <= m)%nat ->
    (__anext__ m [] self).2 = Finished (inr StopAsyncIteration) /\
    pending (iterator (__anext__ m [] self).1) = [PyRequest r].
Proof.
  intros r self.
  destruct (yielded_None_ends_stream self [] [PyRequest r] eq_refl eq_refl)
    as (_ & _ & _ & Hlive).
  apply Hlive. left. simpl. lia.
Defined.

(** C10: if the wrapped object is neither an [Iterator] nor an
    [AsyncIterator], [__anext__] never consults it and never returns a
    request; once the back-pressure loop lets the call through it reaches
    [return request] with [request] unassigned and fails with
    [UnboundLocalError].  For the two supported runtime types the call never
    fails in that way. *)
Theorem unsupported_iterator_fails (self : AsyncRequestsIterator) (sched : list Z) :
  (is_Iterator (iterator self) = false -> is_AsyncIterator (iterator self) = false ->
   (forall n v, (__anext__ n sched self).2 <> Finished (inl v)) /\
   (forall n, iterator (__anext__ n sched self).1 = iterator self) /\
   (lets_through (_prefetch self) (_request_counter self) sched ->
    exists n, forall m, (n <= m)%nat ->
      (__anext__ m sched self).2 = Finished (inr UnboundLocalError))) /\
  (is_Iterator (iterator self) || is_AsyncIterator (iterator self) = true ->
   forall n, (__anext__ n sched self).2 <> Finished (inr UnboundLocalError)).
Proof.
  split.
  - intros Hsync Hasync. repeat split.
    + intros n v.
      destruct (unsupported_run (iterator self) n sched (self, Line63) Hsync Hasync) as [_ Hf];
        [done|].
      unfold __anext__. intros Heq. by rewrite Heq in Hf.
    + intros n.
      by destruct (unsupported_run (iterator self) n sched (self, Line63) Hsync Hasync) as [? _].
    + intros Hopen.
      destruct (lets_through_reaches_Line66 self sched Hopen) as (n & sched' & self' & Hit & Hrun).
      exists (n + 1)%nat. intros m Hm. unfold __anext__.
      rewrite (corun_finishes n 1 sched sched' (self, Line63) self' self'
                 (inr UnboundLocalError) Hrun); [done| |done].
      apply dispatch_neither; by rewrite Hit.
  - intros Hk n. destruct (supported_run n sched (self, Line63)) as [_ Hf]; [done|].
    unfold __anext__. intros Heq. by rewrite Heq in Hf.
Qed.

Lemma unsupported_iterator_fails_witness :
  let r := mkRequest 1 "/" [] ∅ [] in
  let self := mkARI (mkIter false false [PyRequest r]) (Some (mkCounter 0)) 1 in
  exists n, forall m, (n <= m)%nat ->
    (__anext__ m [] self).2 = Finished (inr UnboundLocalError).
Proof.
  intros r self.
  destruct (unsupported_iterator_fails self []) as [Hfail _].
  destruct (Hfail eq_refl eq_refl) as (_ & _ & Hlive).
  apply Hlive. right. exists (mkCounter 0). split; [reflexivity|].
  apply Exists_cons_hd. simpl. lia.
Defined.

(** ** Worker: the endpoint table *)

Lemma declared_requests_MyExec args :
  declared_requests (MyExec args)
  = <["/1" := "foobar"]> (<["/2" := "foobar"]> (<[default_endpoint := "foo"]> ∅)).
Proof. reflexivity. Qed.

(** An endpoint bound by the launch arguments resolves to that binding. *)
Lemma resolve_override cls (uses_requests : gmap string string) on h :
  uses_requests !! on = Some h ->
  resolve (endpoint_table cls uses_requests) on = Some h.
Proof.
  intros Hov. unfold resolve, endpoint_table.
  by rewrite (lookup_union_Some_l _ _ _ _ Hov).
Qed.

(** An endpoint the launch arguments do not mention resolves as declared. *)
Lemma resolve_declared cls (uses_requests : gmap string string) on :
  uses_requests !! on = None -> uses_requests !! default_endpoint = None ->
  resolve (endpoint_table cls uses_requests) on = resolve (declared_requests cls) on.
Proof.
  intros Hon Hdef. unfold resolve, endpoint_table.
  rewrite !lookup_union_r by done. done.
Qed.

Lemma serving_worker_start uses (uses_requests : gmap string string) args on h :
  resolve (endpoint_table (uses args) uses_requests) on = Some h ->
  serving (worker_start uses uses_requests args) on = get_method (uses args) h.
Proof. intros H. unfold serving, worker_start. simpl. by rewrite H. Qed.

Lemma post_served w on inputs m :
  serving w on = Some m -> post w on inputs = body m inputs ∅.
Proof. intros H. unfold post, worker_process. simpl. by rewrite H. Qed.

(** ** Claims on the worker *)

(** C5: for the executor [MyExec] with default handler [foo], undecorated
    method [bar] and handler [foobar] bound to [/1] and [/2], launched with
    [uses_requests = {'/index': 'bar'}]: a request to [/index] is served by
    [bar], a request to [/1] by [foobar], and a request to any endpoint with
    no explicit binding by the default handler [foo]; and for every executor
    and every launch-argument override, the overridden endpoint resolves to
    the handler named by the override, whatever the decorators declare. *)
Theorem override_requests_binding :
  let w := flow_worker {["/index" := "bar"]} in
  (forall inputs, post w "/index" inputs = set_text "bar" <$> inputs) /\
  (forall inputs, post w "/1" inputs = set_text "foobar" <$> inputs) /\
  (forall on inputs, on ∉ ["/index"; "/1"; "/2"] ->
     post w on inputs = set_text "foo" <$> inputs) /\
  (forall uses (uses_requests : gmap string string) args on h,
     uses_requests !! on = Some h ->
     resolve (requests_table (worker_start uses uses_requests args)) on = Some h).
Proof.
  intros w. split; [|split; [|split]].
  - intros inputs.
    refine (post_served w "/index" inputs
             (mkMethod "bar" undecorated (fun docs _ => set_text "bar" <$> docs)) _).
    unfold w, flow_worker. rewrite (serving_worker_start _ _ _ _ "bar"); [reflexivity|].
    by apply resolve_override.
  - intros inputs.
    refine (post_served w "/1" inputs
             (mkMethod "foobar" (requests (Some ["/1"; "/2"]))
                (fun docs _ => set_text "foobar" <$> docs)) _).
    unfold w, flow_worker. rewrite (serving_worker_start _ _ _ _ "foobar"); [reflexivity|].
    rewrite resolve_declared by done. done.
  - intros on inputs Hon.
    assert (on <> "/index" /\ on <> "/1" /\ on <> "/2") as (H0 & H1 & H2).
    { rewrite !not_elem_of_cons in Hon. by destruct Hon as (? & ? & ? & _). }
    refine (post_served w on inputs
             (mkMethod "foo" (requests None) (fun docs _ => set_text "foo" <$> docs)) _).
    unfold w, flow_worker. rewrite (serving_worker_start _ _ _ _ "foo"); [reflexivity|].
    rewrite resolve_declared; [|by rewrite lookup_singleton_ne|done].
    rewrite declared_requests_MyExec. unfold resolve.
    rewrite !lookup_insert_ne by done.
    destruct (decide (on = default_endpoint)) as [->|Hd].
    + by rewrite lookup_insert_eq.
    + rewrite lookup_insert_ne, lookup_empty by done.
      by rewrite !lookup_insert_ne, lookup_insert_eq by done.
  - intros uses uses_requests args on h Hov. by apply resolve_override.
Qed.

Lemma override_requests_binding_witness :
  post (flow_worker {["/index" := "bar"]}) "/index-blah" [mkDocument "input0" "" ∅]
  = [mkDocument "input0" "foo" ∅].
Proof.
  destruct override_requests_binding as (_ & _ & Hdefault & _).
  apply (Hdefault "/index-blah" [mkDocument "input0" "" ∅]).
  rewrite !not_elem_of_cons. repeat split; try discriminate. apply not_elem_of_nil.
Defined.

(** The assertions of [test_override_requests], on the model. *)
Example test_override_requests :
  text <$> post (flow_worker ∅) "/index" [mkDocument "input0" "" ∅] = ["foo"] /\
  text <$> post (flow_worker {["/index" := "bar"]}) "/index" [mkDocument "input0" "" ∅] = ["bar"] /\
  text <$> post (flow_worker {["/index" := "bar"]}) "/1" [mkDocument "input0" "" ∅] = ["foobar"] /\
  text <$> post (flow_worker {["/index" := "foobar"]}) "/index" [mkDocument "input0" "" ∅] = ["foobar"] /\
  text <$> post (flow_worker {["/index" := "foobar"]}) "/index-blah" [mkDocument "input0" "" ∅] = ["foo"] /\
  text <$> post (flow_worker {["/default" := "bar"]}) "/index" [mkDocument "input0" "" ∅] = ["bar"].
Proof. repeat match goal with |- _ /\ _ => split end; vm_compute; reflexivity. Qed.

(** ** Head: polling ALL *)







(** ** Merging by document identity *)






(** ** Gateway: the single-pod topology *)




(** Closed statements about the scenarios are settled by evaluation. *)
Ltac by_evaluation :=
  repeat match goal with |- _ /\ _ => split end;
  vm_compute; reflexivity.








(** ** Claims on the running system *)



(** The assertions of [test_runtimes_with_executor], on the model: 20
    responses, the first with [(1 + 1 + 1) * 10 + 1] documents. *)
Example test_runtimes_with_executor_asserts :
  length test_runtimes_with_executor = 20%nat /\
  (length <$> head test_runtimes_with_executor) = Some ((1 + 1 + 1) * 10 + 1)%nat /\
  py_count "client0-Request" (text <$> default [] (head test_runtimes_with_executor)) = 10%nat /\
  py_count "pod0/uses_before" (text <$> default [] (head test_runtimes_with_executor)) = 10%nat /\
  py_count "pod0/uses_after" (text <$> default [] (head test_runtimes_with_executor)) = 1%nat /\
  (fun i => py_count ("pod0/shards/" +:+ pretty i)
              (text <$> default [] (head test_runtimes_with_executor))) <$> seq 0 10
  = replicate 10 1%nat.
Proof. by_evaluation. Qed.

(** C4: for the linear topology [{start-gateway -> [pod0], pod0 ->
    [end-gateway]}] with one worker replica running the identity executor, the
    client's 20 inputs with text ["client0-Request"], posted one document per
    request, make 20 requests of one document each, and the Gateway yields
    exactly 20 responses, each containing exactly that one document,
    unchanged. *)
Theorem trivial_topology_responses :
  docs <$> client_post "/" async_inputs 1
  = (fun i => [mkDocument (input_id i) "client0-Request" ∅]) <$> seq 0 20 /\
  length test_runtimes_trivial_topology = 20%nat /\
  docs <$> test_runtimes_trivial_topology
  = (fun i => [mkDocument (input_id i) "client0-Request" ∅]) <$> seq 0 20.
Proof. by_evaluation. Qed.

Example test_runtimes_replicas :
  length (run_test replicas_pods) = 20%nat /\
  length <$> (docs <$> head (run_test replicas_pods)) = Some 1%nat /\
  routes <$> run_test replicas_pods
  = replicate 2 ((fun i => ["pod0/" +:+ pretty i]) <$> seq 0 10) ≫= id.
Proof. by_evaluation. Qed.

(** [test_runtimes_shards]: ten shards running the identity executor answer
    with the same input document, which the merge keeps once. *)
Example test_runtimes_shards :
  length (run_test (shards_pods ANY)) = 20%nat /\
  length <$> (docs <$> head (run_test (shards_pods ANY))) = Some 1%nat /\
  length (run_test (shards_pods ALL)) = 20%nat /\
  length <$> (docs <$> head (run_test (shards_pods ALL))) = Some 1%nat.
Proof. by_evaluation. Qed.

(** ** Gateway: traversal of an arbitrary topology *)





Lemma NoDup_pods g : NoDup g.*1 -> NoDup (pods g).
Proof. apply NoDup_filter. Qed.





(** A visit leaves the arena as it is, or calls the pod: the pod was ready
    and has an address; its response fills its slot, the call is logged and
    the pod's head is updated in the address table. *)
Lemma visit_cases g req a p :
  visit g req a p = a \/
  exists resp h',
    ready g a p = true /\ is_Some (deployments a !! p) /\
    visit g req a p
    = {| slots := <[p := resp]> (slots a);
         invoked := invoked a ++ [p];
         deployments := <[p := h']> (deployments a) |}.
Proof.
  unfold visit, call_pod. destruct (ready g a p); [|by left].
  destruct (deployments a !! p) as [h|] eqn:Hh; [|by left].
  destruct (head_process h _) as [resp h']. right. by exists resp, h'.
Qed.


(** Without an address a pod is never called. *)
Lemma visit_no_address g req a p : deployments a !! p = None -> visit g req a p = a.
Proof. intros Hd. unfold visit, call_pod. rewrite Hd. by destruct (ready g a p). Qed.


(** Addresses are never withdrawn. *)
Lemma visit_addresses g req a p q :
  is_Some (deployments a !! q) -> is_Some (deployments (visit g req a p) !! q).
Proof.
  intros Hq. destruct (visit_cases g req a p) as [->|(resp & h' & _ & _ & ->)]; [done|].
  cbn [deployments]. rewrite lookup_insert. by case_decide.
Qed.

Lemma visits_addresses g req l : forall a q,
  is_Some (deployments a !! q) -> is_Some (deployments (foldl (visit g req) a l) !! q).
Proof.
  induction l as [|p l IH]; intros a q Hq; [done|].
  simpl. apply IH. by apply visit_addresses.
Qed.
















(** Without addresses nothing is called, whatever the graph. *)
Lemma traverse_no_address g req :
  traverse g ∅ req = {| slots := {[start_gateway := req]}; invoked := []; deployments := ∅ |}.
Proof.
  unfold traverse. generalize (length (pods g)). intros n.
  induction n as [|n IH]; [done|]. simpl. rewrite IH. unfold sweep.
  generalize (pods g). intros l. induction l as [|p l IHl]; [done|].
  simpl. by rewrite visit_no_address.
Qed.














(** The assertions of [test_runtimes_flow_topology], on the model, for the
    four combinations of uses-before and uses-after. *)
Example test_runtimes_flow_topology_asserts :
  (fun '(b, a) => length (test_runtimes_flow_topology b a))
    <$> [(true, true); (true, false); (false, true); (false, false)]
  = [20; 20; 20; 20]%nat /\
  (fun '(b, a) => length <$> (docs <$> head (test_runtimes_flow_topology b a)))
    <$> [(true, true); (true, false); (false, true); (false, false)]
  = [Some 1; Some 1; Some 1; Some 1]%nat /\
  invoked (traverse complete_graph_dict (flow_topology_pods false false)
             (mkRequest 0 "/" [] ∅ []))
  = ["pod0"; "pod1"; "pod2"; "pod4"; "pod5"; "pod3"; "pod6"; "merger"; "pod_last"].
Proof. by_evaluation. Qed.

(** A Gateway without an address for some pod does not start, and without
    addresses nothing is ever called; a graph in which no pod feeds
    [end-gateway] gives the client no response. *)
Example gateway_edge_cases :
  gateway_run complete_graph_dict ∅ (client_post "/" async_inputs 1) = None /\
  invoked (traverse complete_graph_dict ∅ (mkRequest 0 "/" [] ∅ [])) = [] /\
  gateway_run [("start-gateway", ["end-gateway"])] ∅ (client_post "/" async_inputs 1)
  = Some [].
Proof.
  split; [by vm_compute|]. split; [by rewrite traverse_no_address|]. by vm_compute.
Qed.

(** * Further properties of [jina/serve/stream/helper.py] *)

(** Two runs under the same schedule stay related when their steps and the
    writes of the other tasks keep them related. *)
Lemma corun_related (R : Coroutine -> Coroutine -> Prop) :
  (forall c1 c2, R c1 c2 -> coroutine_suspended c1 = coroutine_suspended c2) ->
  (forall c1 c2, R c1 c2 -> R (coroutine_step c1) (coroutine_step c2)) ->
  (forall v c1 c2, R c1 c2 -> R (coroutine_interfere v c1) (coroutine_interfere v c2)) ->
  forall n sched c1 c2, R c1 c2 -> R (corun n sched c1) (corun n sched c2).
Proof.
  intros Hsusp Hstep Hint n. induction n as [|n IH]; intros sched c1 c2 HR; [done|].
  pose proof (Hsusp _ _ HR) as Hs.
  destruct (coroutine_suspended c1) eqn:H1.
  - destruct sched as [|v sched].
    + rewrite !run_alone. by apply IH, Hstep.
    + rewrite !run_resumed by done. by apply IH, Hstep, Hint.
  - rewrite !run_running by done. by apply IH, Hstep.
Qed.

Lemma write_count_counter v s1 s2 :
  _request_counter s1 = _request_counter s2 ->
  _request_counter (write_count v s1) = _request_counter (write_count v s2).
Proof. intros H. simpl. by rewrite H. Qed.

Ltac related_close :=
  simpl in *; repeat split; first [done | congruence | lia].

Lemma same_but_kind_step c1 c2 :
  same_but_kind c1 c2 -> same_but_kind (coroutine_step c1) (coroutine_step c2).
Proof.
  destruct c1 as [s1 f1], c2 as [s2 f2].
  intros (Hf & Hc & Hp & Hv & H1 & H2). simpl in *. subst f2.
  unfold same_but_kind, coroutine_step. cbn [fst snd].
  destruct f1 as [| | | |[[]|]|?|?]; cbn [anext_step]; try related_close.
  - rewrite Hp. destruct (0 <? _prefetch s2); related_close.
  - rewrite Hc, Hp. destruct (_request_counter s2) as [rc|] eqn:E; [|related_close].
    destruct (_prefetch s2 <=? count rc); related_close.
  - rewrite H1, H2. unfold iterator__next__, iter_next. rewrite Hv.
    destruct (pending (iterator s2)) eqn:Hv2; related_close.
Qed.

Lemma same_but_prefetch_step c1 c2 :
  same_but_prefetch c1 c2 -> same_but_prefetch (coroutine_step c1) (coroutine_step c2).
Proof.
  destruct c1 as [s1 f1], c2 as [s2 f2].
  intros (Hf & Hc & Hit & Hp1 & Hp2 & H64 & H65). simpl in *. subst f2.
  unfold same_but_prefetch, coroutine_step. cbn [fst snd].
  destruct f1 as [| | | |[[]|]|?|?]; cbn [anext_step]; try related_close.
  - destruct (0 <? _prefetch s1) eqn:E1; [lia|].
    destruct (0 <? _prefetch s2) eqn:E2; [lia|]. related_close.
  - rewrite Hit. unfold iterator__next__, iter_next, iter_anext. rewrite Hit.
    destruct (is_Iterator (iterator s2)); [|destruct (is_AsyncIterator (iterator s2))];
      destruct (pending (iterator s2)); related_close.
Qed.

Lemma consumed_step vs c : consumed vs c -> consumed vs (coroutine_step c).
Proof.
  destruct c as [s f]. unfold consumed, coroutine_step. simpl.
  destruct f as [| | | |[[]|]|?|?]; simpl; try done.
  - by destruct (0 <? _prefetch s).
  - destruct (_request_counter s) as [rc|]; [destruct (_prefetch s <=? count rc)|];
      simpl; auto.
  - intros <-. unfold iterator__next__, iter_next, iter_anext.
    destruct (is_Iterator (iterator s)); [|destruct (is_AsyncIterator (iterator s))];
      destruct (pending (iterator s)) eqn:Hv; simpl; rewrite ?Hv; auto.
Qed.

(** What a call delivers for an [AsyncIterator] once control is at [Line66]. *)
Lemma dispatch_async self sched :
  is_Iterator (iterator self) = false -> is_AsyncIterator (iterator self) = true ->
  exists self',
    iterator self' = (iter_anext (iterator self)).2 /\
    corun 2 sched (self, Line66) = (self', Finished (iter_anext (iterator self)).1).
Proof.
  intros Hsync Hasync. rewrite run_running, step_Line66_async by done.
  destruct (resume_future sched (with_iterator self (iter_anext (iterator self)).2)
              (Line86 (iter_anext (iterator self)).1)) as (self' & Hit & Hrun & _); [done|].
  exists self'. split; [done|]. by rewrite Hrun.
Qed.

(** X1: through an [AsyncIterator], [__anext__] delivers every value of the
    underlying iterator as it is, [None] included, and advances the iterator
    by exactly that value; it raises [StopAsyncIteration] only when the
    underlying iterator is exhausted. *)
Theorem async_iterator_delivers_every_value (self : AsyncRequestsIterator) (sched : list Z) :
  is_Iterator (iterator self) = false ->
  is_AsyncIterator (iterator self) = true ->
  lets_through (_prefetch self) (_request_counter self) sched ->
  exists n, forall m, (n <= m)%nat ->
    match pending (iterator self) with
    | [] =>
        (__anext__ m sched self).2 = Finished (inr StopAsyncIteration) /\
        pending (iterator (__anext__ m sched self).1) = []
    | v :: rest =>
        (__anext__ m sched self).2 = Finished (inl v) /\
        pending (iterator (__anext__ m sched self).1) = rest
    end.
Proof.
  intros Hsync Hasync Hopen.
  destruct (lets_through_reaches_Line66 self sched Hopen) as (n & sched' & self' & Hit & Hrun).
  destruct (dispatch_async self' sched') as (self'' & Hit' & Hfin).
  { by rewrite Hit. } { by rewrite Hit. }
  exists (n + 2)%nat. intros m Hm. unfold __anext__.
  rewrite (corun_finishes n 2 sched sched' (self, Line63) self' self'' _ Hrun Hfin m Hm).
  cbn [fst snd]. rewrite Hit', Hit. unfold iter_anext.
  destruct (pending (iterator self)) as [|v rest] eqn:Hp; simpl; by rewrite ?Hp.
Qed.

Lemma async_iterator_delivers_every_value_witness :
  let r := mkRequest 3 "/" [] ∅ [] in
  let self := mkARI (mkIter false true [PyNone; PyRequest r]) None 0 in
  exists n, forall m, (n <= m)%nat ->
    (__anext__ m [] self).2 = Finished (inl PyNone) /\
    pending (iterator (__anext__ m [] self).1) = [PyRequest r].
Proof.
  intros r self.
  destruct (async_iterator_delivers_every_value self [] eq_refl eq_refl) as [n Hn].
  { left. simpl. lia. }
  exists n. exact Hn.
Defined.

(** X2: for an object that is both an [Iterator] and an [AsyncIterator] the
    [Iterator] test comes first: every run of [__anext__] is, step for step,
    the run on the same object seen as an [Iterator] only. *)
Theorem iterator_test_comes_first (self : AsyncRequestsIterator) (sched : list Z) (n : nat) :
  is_Iterator (iterator self) = true ->
  (__anext__ n sched self).2 = (__anext__ n sched (as_Iterator self)).2 /\
  pending (iterator (__anext__ n sched self).1)
  = pending (iterator (__anext__ n sched (as_Iterator self)).1).
Proof.
  intros Hsync.
  destruct (corun_related same_but_kind) with (n := n) (sched := sched)
    (c1 := (self, Line63)) (c2 := (as_Iterator self, Line63))
    as (Hf & _ & _ & Hv & _).
  - intros c1 c2 (Hf & _). unfold coroutine_suspended. by rewrite Hf.
  - apply same_but_kind_step.
  - intros v [s1 f1] [s2 f2] (Hf & Hc & Hp & Hv & H1 & H2).
    unfold same_but_kind. simpl in *. repeat split; try done. by rewrite Hc.
  - unfold same_but_kind. simpl. by repeat split.
  - by split.
Qed.

Lemma iterator_test_comes_first_witness :
  let r := mkRequest 3 "/" [] ∅ [] in
  let self := mkARI (mkIter true true [PyNone; PyRequest r]) None 0 in
  (__anext__ 3 [] self).2 = (__anext__ 3 [] (as_Iterator self)).2.
Proof.
  intros r self.
  destruct (iterator_test_comes_first self [] 3 eq_refl) as [Hf _]. exact Hf.
Defined.

Lemma step_Line64_no_counter self :
  _request_counter self = None ->
  coroutine_step (self, Line64) = (self, Finished (inr AttributeError)).
Proof. intros H. unfold coroutine_step; simpl. by rewrite H. Qed.

(** X3: constructed with [prefetch > 0] but without a request counter (the
    default [request_counter=None]), [__anext__] fails with [AttributeError]
    at its second step, before the underlying iterator is consulted; the
    iterator is left as it was. *)
Theorem prefetch_without_counter_fails (self : AsyncRequestsIterator) (sched : list Z) (n : nat) :
  0 < _prefetch self ->
  _request_counter self = None ->
  (2 <= n)%nat ->
  __anext__ n sched self = (self, Finished (inr AttributeError)).
Proof.
  intros Hpos Hnone Hn. unfold __anext__.
  replace n with (S (S (n - 2))) by lia.
  rewrite run_running, step_Line63_on by done.
  rewrite run_running, step_Line64_no_counter by done.
  apply finished_stays.
Qed.

Lemma prefetch_without_counter_fails_witness :
  let self := mkARI (mkIter true false [PyRequest (mkRequest 0 "/" [] ∅ [])]) None 5 in
  __anext__ 2 [] self = (self, Finished (inr AttributeError)).
Proof.
  intros self. apply (prefetch_without_counter_fails self [] 2); [simpl; lia|reflexivity|lia].
Defined.

(** X4: a [prefetch] that is zero or negative switches back-pressure off:
    for any two such values the runs of [__anext__] agree step for step,
    whatever the counter holds and whatever the other tasks write. *)
Theorem nonpositive_prefetch_is_off (self : AsyncRequestsIterator) (P : Z)
    (sched : list Z) (n : nat) :
  _prefetch self <= 0 ->
  P <= 0 ->
  (__anext__ n sched (with_prefetch P self)).2 = (__anext__ n sched self).2 /\
  iterator (__anext__ n sched (with_prefetch P self)).1 = iterator (__anext__ n sched self).1.
Proof.
  intros Hself HP.
  destruct (corun_related same_but_prefetch) with (n := n) (sched := sched)
    (c1 := (with_prefetch P self, Line63)) (c2 := (self, Line63))
    as (Hf & _ & Hit & _).
  - intros c1 c2 (Hf & _). unfold coroutine_suspended. by rewrite Hf.
  - apply same_but_prefetch_step.
  - intros v [s1 f1] [s2 f2] (Hf & Hc & Hit & Hp1 & Hp2 & H64 & H65).
    unfold same_but_prefetch. simpl in *. repeat split; try done. by rewrite Hc.
  - unfold same_but_prefetch. simpl. by repeat split.
  - by split.
Qed.

Lemma nonpositive_prefetch_is_off_witness :
  let self := mkARI (mkIter true false [PyRequest (mkRequest 0 "/" [] ∅ [])])
                (Some (mkCounter 7)) 0 in
  (__anext__ 3 [9] (with_prefetch (-4) self)).2 = (__anext__ 3 [9] self).2.
Proof.
  intros self.
  destruct (nonpositive_prefetch_is_off self (-4) [9] 3) as [Hf _]; [simpl; lia|lia|].
  exact Hf.
Defined.

(** The counter after a run is the one before it or one the other tasks wrote. *)
Lemma corun_counter n : forall sched c,
  _request_counter (corun n sched c).1 = _request_counter c.1 \/
  exists v, v ∈ sched /\ _request_counter (corun n sched c).1 = Some {| count := v |}.
Proof.
  induction n as [|n IH]; intros sched [s f]; [by left|].
  destruct (coroutine_suspended (s, f)) eqn:Hs.
  - destruct sched as [|v sched].
    + rewrite run_alone. destruct (IH [] (coroutine_step (s, f))) as [->|(v & Hv & _)].
      * left. apply anext_step_counter.
      * by apply not_elem_of_nil in Hv.
    + rewrite run_resumed by done.
      destruct (IH sched (coroutine_step (coroutine_interfere v (s, f))))
        as [->|(v' & Hv' & ->)].
      * unfold coroutine_step, coroutine_interfere. cbn [fst snd].
        rewrite anext_step_counter. simpl.
        destruct (_request_counter s); [right|by left].
        exists v. split; [left|done].
      * right. exists v'. split; [by right|done].
  - rewrite run_running by done.
    destruct (IH sched (coroutine_step (s, f))) as [->|(v & Hv & ->)].
    + left. apply anext_step_counter.
    + right. by exists v.
Qed.

(** X5: a call of [__anext__] takes at most one value from the underlying
    iterator, and none while it is still in its waiting loop; it never
    changes [prefetch], and it never writes the request counter: the counter
    it ends with is the one it started with or one that another task
    wrote. *)
Theorem anext_takes_at_most_one (self : AsyncRequestsIterator) (sched : list Z) (n : nat) :
  (pending (iterator (__anext__ n sched self).1) = pending (iterator self) \/
   pending (iterator (__anext__ n sched self).1) = drop 1 (pending (iterator self))) /\
  (past_waiting (__anext__ n sched self).2 = false ->
   pending (iterator (__anext__ n sched self).1) = pending (iterator self)) /\
  _prefetch (__anext__ n sched self).1 = _prefetch self /\
  (_request_counter (__anext__ n sched self).1 = _request_counter self \/
   exists v, v ∈ sched /\
     _request_counter (__anext__ n sched self).1 = Some {| count := v |}).
Proof.
  assert (consumed (pending (iterator self)) (__anext__ n sched self)) as Hc.
  { unfold __anext__. apply run_invariant.
    - intros c. apply consumed_step.
    - intros v [s f] H _. by destruct f.
    - done. }
  split; [|split; [|split]].
  - unfold consumed in Hc. destruct ((__anext__ n sched self).2); auto.
  - unfold consumed in Hc. by destruct ((__anext__ n sched self).2).
  - unfold __anext__.
    apply (run_invariant coroutine_step coroutine_suspended coroutine_interfere
             (fun c => _prefetch c.1 = _prefetch self)); [| |done].
    + intros [s f] H. unfold coroutine_step. simpl in *. by rewrite anext_step_prefetch.
    + by intros v [s f] H _.
  - apply corun_counter.
Qed.

Lemma anext_takes_at_most_one_witness :
  let self := mkARI (mkIter true false [PyRequest (mkRequest 0 "/" [] ∅ [])])
                (Some (mkCounter 3)) 2 in
  pending (iterator (__anext__ 5 [3; 4] self).1) = pending (iterator self).
Proof.
  intros self.
  destruct (anext_takes_at_most_one self [3; 4] 5) as (_ & Hwait & _).
  apply Hwait. vm_compute. reflexivity.
Defined.

(** One whole call with back-pressure off and no other task running. *)
Lemma anext_off_sync self :
  _prefetch self <= 0 -> is_Iterator (iterator self) = true ->
  __anext__ 4 [] self
  = match pending (iterator self) with
    | [] => (with_iterator self (iterator self), Finished (inr StopAsyncIteration))
    | PyNone :: rest =>
        (with_iterator self (advance (iterator self) rest),
         Finished (inr StopAsyncIteration))
    | v :: rest =>
        (with_iterator self (advance (iterator self) rest), Finished (inl v))
    end.
Proof.
  intros Hoff Hsync. unfold __anext__.
  rewrite run_running, step_Line63_off by done.
  rewrite run_running, step_Line66_sync by done.
  unfold iterator__next__, iter_next.
  destruct (pending (iterator self)) as [|[|r] rest]; cbn [fst snd];
    rewrite run_alone; unfold coroutine_step; cbn [fst snd anext_step];
    apply finished_stays.
Qed.

Lemma anext_off_async self :
  _prefetch self <= 0 ->
  is_Iterator (iterator self) = false -> is_AsyncIterator (iterator self) = true ->
  __anext__ 4 [] self
  = match pending (iterator self) with
    | [] => (with_iterator self (iterator self), Finished (inr StopAsyncIteration))
    | v :: rest =>
        (with_iterator self (advance (iterator self) rest), Finished (inl v))
    end.
Proof.
  intros Hoff Hsync Hasync. unfold __anext__.
  rewrite run_running, step_Line63_off by done.
  rewrite run_running, step_Line66_async by done.
  unfold iter_anext.
  destruct (pending (iterator self)) as [|v rest]; cbn [fst snd];
    rewrite run_alone; unfold coroutine_step; cbn [fst snd anext_step];
    apply finished_stays.
Qed.

Lemma async_for_sync vs : forall self rounds,
  _prefetch self <= 0 -> is_Iterator (iterator self) = true ->
  pending (iterator self) = vs -> (length vs < rounds)%nat ->
  async_for rounds self = (before_None vs, Exhausted).
Proof.
  induction vs as [|v vs IH]; intros self rounds Hoff Hsync Hp Hr;
    (destruct rounds as [|rounds]; [simpl in Hr; lia|]);
    cbn [async_for]; rewrite anext_off_sync, Hp by done.
  - done.
  - destruct v as [|r]; [done|]. cbn [fst snd].
    rewrite (IH _ rounds); [done|done|done|done|simpl in Hr; lia].
Qed.

Lemma async_for_async vs : forall self rounds,
  _prefetch self <= 0 ->
  is_Iterator (iterator self) = false -> is_AsyncIterator (iterator self) = true ->
  pending (iterator self) = vs -> (length vs < rounds)%nat ->
  async_for rounds self = (vs, Exhausted).
Proof.
  induction vs as [|v vs IH]; intros self rounds Hoff Hsync Hasync Hp Hr;
    (destruct rounds as [|rounds]; [simpl in Hr; lia|]);
    cbn [async_for]; rewrite anext_off_async, Hp by done.
  - done.
  - cbn [fst snd].
    rewrite (IH _ rounds); [done|done|done|done|done|simpl in Hr; lia].
Qed.

(** X6: with back-pressure off, an [async for] over the iterator ends
    normally and has delivered, in order, the values of a synchronous
    iterator up to its first [None] (what follows is never read), and all the
    values of an asynchronous iterator, [None] included. *)
Theorem async_for_collects (self : AsyncRequestsIterator) (rounds : nat) :
  _prefetch self <= 0 ->
  (length (pending (iterator self)) < rounds)%nat ->
  (is_Iterator (iterator self) = true ->
   async_for rounds self = (before_None (pending (iterator self)), Exhausted)) /\
  (is_Iterator (iterator self) = false -> is_AsyncIterator (iterator self) = true ->
   async_for rounds self = (pending (iterator self), Exhausted)).
Proof.
  intros Hoff Hr. split.
  - intros Hsync. by apply async_for_sync.
  - intros Hsync Hasync. by apply async_for_async.
Qed.

Lemma async_for_collects_witness :
  let r i := PyRequest (mkRequest i "/" [] ∅ []) in
  async_for 5 (mkARI (mkIter true false [r 0%nat; r 1%nat; PyNone; r 2%nat]) None 0)
  = ([r 0%nat; r 1%nat], Exhausted).
Proof.
  intros r.
  destruct (async_for_collects
              (mkARI (mkIter true false [r 0%nat; r 1%nat; PyNone; r 2%nat]) None 0) 5)
    as [Hsync _]; [simpl; lia|simpl; lia|].
  exact (Hsync eq_refl).
Defined.

(** * Further properties of the tests *)

Lemma shards_connection_list_dict_snoc ports port :
  shards_connection_list_dict (ports ++ [port])
  = defaultdict_append (shards_connection_list_dict ports) (length ports) (worker_address port).
Proof.
  unfold shards_connection_list_dict. rewrite imap_app, foldl_app. simpl.
  by rewrite Nat.add_0_r.
Qed.

Lemma shards_connection_list_dict_lookup ports : forall i,
  shards_connection_list_dict ports !! i
  = (fun port => [worker_address port]) <$> ports !! i.
Proof.
  induction ports as [|port ports IH] using rev_ind; intros i; [done|].
  rewrite shards_connection_list_dict_snoc. unfold defaultdict_append.
  rewrite IH. rewrite (lookup_ge_None_2 ports (length ports)) by lia. simpl.
  destruct (decide (i = length ports)) as [->|Hi].
  - rewrite lookup_insert_eq. by rewrite list_lookup_middle.
  - rewrite lookup_insert_ne by done. rewrite IH.
    destruct (decide (i < length ports)%nat) as [Hlt|Hge].
    + by rewrite lookup_app_l.
    + rewrite !(lookup_ge_None_2 _ i); [done| |lia].
      rewrite length_app. simpl. lia.
Qed.

Lemma replicas_connection_list_dict_snoc ports port :
  replicas_connection_list_dict (ports ++ [port])
  = defaultdict_append (replicas_connection_list_dict ports) 0 (worker_address port).
Proof. unfold replicas_connection_list_dict. by rewrite foldl_app. Qed.

Lemma replicas_connection_list_dict_cons port ports :
  replicas_connection_list_dict (port :: ports)
  = {[ 0%nat := worker_address <$> port :: ports ]}.
Proof.
  induction ports as [|port' ports IH] using rev_ind.
  - unfold replicas_connection_list_dict, defaultdict_append. simpl.
    by rewrite lookup_empty.
  - rewrite app_comm_cons, replicas_connection_list_dict_snoc, IH.
    unfold defaultdict_append. rewrite lookup_singleton_eq. simpl.
    rewrite insert_singleton_eq. by rewrite fmap_app.
Qed.

(** X8: the loop that appends worker [i] under key [i], used by
    [test_runtimes_shards], [test_runtimes_with_executor] and
    [test_runtimes_with_replicas_advance_faster], builds as many shards as
    there are workers, each with exactly one replica; the loop of
    [test_runtimes_replicas], which appends under key [0], builds a single
    shard holding all the workers in the order they were started. *)
Theorem connection_lists_of_the_tests (ports : list nat) :
  (forall i, shards_connection_list_dict ports !! i
             = (fun port => [worker_address port]) <$> ports !! i) /\
  size (shards_connection_list_dict ports) = length ports /\
  (ports <> [] ->
   replicas_connection_list_dict ports = {[ 0%nat := worker_address <$> ports ]}) /\
  replicas_connection_list_dict [] = ∅.
Proof.
  split; [apply shards_connection_list_dict_lookup|]. split; [|split; [|done]].
  - induction ports as [|port ports IH] using rev_ind; [done|].
    rewrite shards_connection_list_dict_snoc. unfold defaultdict_append.
    rewrite map_size_insert_None.
    + rewrite IH, length_app. simpl. lia.
    + rewrite shards_connection_list_dict_lookup.
      by rewrite (lookup_ge_None_2 ports (length ports)) by lia.
  - intros Hne. destruct ports as [|port ports]; [done|].
    apply replicas_connection_list_dict_cons.
Qed.

Lemma connection_lists_of_the_tests_witness :
  replicas_connection_list_dict [80; 81]%nat
  = {[ 0%nat := ["127.0.0.1:80"; "127.0.0.1:81"] ]}.
Proof.
  destruct (connection_lists_of_the_tests [80; 81]%nat) as (_ & _ & Hrep & _).
  rewrite Hrep by discriminate. vm_compute. reflexivity.
Defined.

(** * Properties of [jina/helloworld/fashion/helper.py] *)

(** ** [reshape] *)

Lemma reshape_go_concat {A} (n : nat) : (0 < n)%nat ->
  forall fuel (l : list A), (length l <= fuel)%nat -> concat (reshape_go fuel n l) = l.
Proof.
  intros Hn. induction fuel as [|fuel IH]; intros l Hl.
  - destruct l; [done|simpl in Hl; lia].
  - destruct l as [|x l]; [done|].
    cbn [reshape_go concat]. rewrite IH; [apply take_drop|].
    rewrite length_drop. simpl in *. lia.
Qed.

Lemma reshape_go_lookup {A} (n : nat) : (0 < n)%nat ->
  forall i fuel (l : list A) row,
    (length l <= fuel)%nat -> reshape_go fuel n l !! i = Some row ->
    row = take n (drop (i * n) l) /\ (i * n < length l)%nat.
Proof.
  intros Hn. induction i as [|i IH]; intros fuel l row Hl Hrow.
  - destruct fuel as [|fuel]; [done|]. destruct l as [|x l]; [done|].
    simpl in Hrow. injection Hrow as <-. split; [done|simpl; lia].
  - destruct fuel as [|fuel]; [done|]. destruct l as [|x l]; [done|].
    cbn [reshape_go] in Hrow. rewrite lookup_cons in Hrow.
    destruct (IH fuel (drop n (x :: l)) row) as [-> Hlt]; [|done|].
    { rewrite length_drop. simpl in *. lia. }
    rewrite length_drop in Hlt. split; [|simpl in *; lia].
    rewrite drop_drop. do 2 f_equal; lia.
Qed.

Lemma reshape_go_length {A} (n : nat) : (0 < n)%nat ->
  forall k fuel (l : list A),
    (length l <= fuel)%nat -> length l = (k * n)%nat ->
    length (reshape_go fuel n l) = k /\ Forall (fun row => length row = n) (reshape_go fuel n l).
Proof.
  intros Hn. induction k as [|k IH]; intros fuel l Hl Hk.
  - destruct l; [|done]. by destruct fuel.
  - destruct fuel as [|fuel]; [simpl in *; lia|].
    destruct l as [|x l]; [simpl in *; lia|].
    cbn [reshape_go]. destruct (IH fuel (drop n (x :: l))) as [Hlen Hall].
    + rewrite length_drop. simpl in *. lia.
    + rewrite length_drop. lia.
    + split; [simpl; by rewrite Hlen|]. constructor; [|done].
      rewrite length_take. lia.
Qed.

Lemma reshape_singletons {A} (l : list A) : reshape 1 l = (fun x => [x]) <$> l.
Proof.
  unfold reshape. generalize (Nat.le_refl (length l)).
  generalize (length l) at 2 3. intros fuel. revert l.
  induction fuel as [|fuel IH]; intros l Hl.
  - destruct l; [done|simpl in Hl; lia].
  - destruct l as [|x l]; [done|]. cbn [reshape_go]. simpl.
    rewrite drop_0. f_equal. apply IH. simpl in Hl. lia.
Qed.

Lemma concat_concat {A} (l : list (list (list A))) :
  concat (concat l) = concat ((fun x => concat x) <$> l).
Proof.
  induction l as [|x l IH]; [done|]. simpl. by rewrite concat_app, IH.
Qed.

Lemma uint8_range b : 0 <= uint8 b <= 255.
Proof. unfold uint8. pose proof (Byte.to_N_bounded b). lia. Qed.

(** ** [load_mnist] and [load_labels] *)

Lemma reshape_concat {A} (n : nat) (l : list A) : (0 < n)%nat -> concat (reshape n l) = l.
Proof. intros Hn. by apply reshape_go_concat. Qed.

Lemma reshape_shape {A} (n k : nat) (l : list A) :
  (0 < n)%nat -> length l = (k * n)%nat ->
  length (reshape n l) = k /\ Forall (fun row => length row = n) (reshape n l).
Proof. intros Hn Hk. by apply reshape_go_length. Qed.

Lemma reshape_lookup {A} (n i : nat) (l row : list A) :
  (0 < n)%nat -> reshape n l !! i = Some row ->
  row = take n (drop (i * n) l) /\ (i * n < length l)%nat.
Proof. intros Hn. by apply reshape_go_lookup. Qed.

Lemma load_mnist_unfold buf :
  load_mnist buf
  = if (length buf <? 16)%nat then inr ValueError
    else if ((length buf - 16) mod 784 =? 0)%nat
         then inl ((fun chunk => reshape 28 chunk) <$> reshape 784 (uint8 <$> drop 16 buf))
         else inr ValueError.
Proof. unfold load_mnist. by rewrite length_fmap, length_drop. Qed.

(** X9: [load_mnist] fails, with [ValueError], exactly when the file is
    shorter than its 16-byte header or the bytes after the header are not a
    whole number of 28 x 28 images; otherwise it returns [(len - 16) / 784]
    images of 28 rows of 28 pixels, and reading them row by row gives back
    the bytes after the header, none lost and none reordered. *)
Theorem load_mnist_images (buf : list Byte.byte) :
  ((length buf < 16)%nat \/ ((length buf - 16) mod 784)%nat <> 0%nat <->
   load_mnist buf = inr ValueError) /\
  (forall e, load_mnist buf = inr e -> e = ValueError) /\
  (forall images, load_mnist buf = inl images ->
     length images = ((length buf - 16) / 784)%nat /\
     Forall (fun image => length image = 28%nat /\
                          Forall (fun row => length row = 28%nat) image) images /\
     concat (concat images) = uint8 <$> drop 16 buf).
Proof.
  rewrite load_mnist_unfold.
  destruct (length buf <? 16)%nat eqn:Hshort.
  { apply Nat.ltb_lt in Hshort. split; [split; [done|by left]|].
    split; [by intros e [= <-]|done]. }
  apply Nat.ltb_ge in Hshort.
  destruct ((length buf - 16) mod 784 =? 0)%nat eqn:Hmod.
  - apply Nat.eqb_eq in Hmod. split; [split; [|done]|split; [done|]].
    { intros [?|?]; [lia|done]. }
    intros images [= <-].
    assert (length (uint8 <$> drop 16 buf) = ((length buf - 16) / 784 * 784)%nat) as Hlen.
    { rewrite length_fmap, length_drop.
      rewrite (Nat.div_mod_eq (length buf - 16) 784) at 1. lia. }
    destruct (reshape_shape 784 _ _ ltac:(lia) Hlen) as [Hn Hrows].
    split; [by rewrite length_fmap|]. split.
    + apply Forall_fmap. eapply Forall_impl; [exact Hrows|].
      intros chunk Hchunk. simpl.
      apply (reshape_shape 28 28); [lia|]. rewrite Hchunk. reflexivity.
    + rewrite concat_concat, <- list_fmap_compose.
      rewrite (list_fmap_ext _ id (reshape 784 (uint8 <$> drop 16 buf))).
      * rewrite list_fmap_id. apply reshape_concat. lia.
      * intros i chunk _. simpl. apply reshape_concat. lia.
  - apply Nat.eqb_neq in Hmod. split; [split; [done|by right]|].
    split; [by intros e [= <-]|done].
Qed.

Lemma load_mnist_images_witness :
  load_mnist (replicate 20 Byte.x00) = inr ValueError.
Proof.
  destruct (load_mnist_images (replicate 20 Byte.x00)) as [[Hfail _] _].
  apply Hfail. right. vm_compute. discriminate.
Defined.

(** X10: pixel [(r, c)] of image [i] returned by [load_mnist] is the byte at
    offset [16 + i * 784 + r * 28 + c] of the file, a value from 0 to 255. *)
Theorem load_mnist_pixel (buf : list Byte.byte) images i r c image row v :
  load_mnist buf = inl images ->
  images !! i = Some image -> image !! r = Some row -> row !! c = Some v ->
  (r < 28)%nat /\ (c < 28)%nat /\
  uint8 <$> buf !! (16 + i * 784 + r * 28 + c)%nat = Some v /\
  0 <= v <= 255.
Proof.
  rewrite load_mnist_unfold.
  destruct (length buf <? 16)%nat; [done|].
  destruct ((length buf - 16) mod 784 =? 0)%nat; [|done].
  intros [= <-] Himage Hrow Hv.
  rewrite list_lookup_fmap in Himage.
  destruct (reshape 784 (uint8 <$> drop 16 buf) !! i) as [chunk|] eqn:Hchunk; [|done].
  injection Himage as <-.
  apply reshape_lookup in Hchunk as [-> Hi]; [|lia].
  apply reshape_lookup in Hrow as [-> Hr]; [|lia].
  apply lookup_take_Some in Hv as [Hv Hc].
  rewrite lookup_drop in Hv. apply lookup_take_Some in Hv as [Hv Hrc].
  rewrite lookup_drop, list_lookup_fmap, lookup_drop in Hv.
  rewrite length_take in Hr.
  assert ((16 + (i * 784 + (r * 28 + c)))%nat = (16 + i * 784 + r * 28 + c)%nat) as Heq by lia.
  rewrite Heq in Hv. split; [lia|]. split; [done|]. split; [done|].
  destruct (buf !! _) as [b|]; [|done]. injection Hv as <-. apply uint8_range.
Qed.

Lemma load_mnist_pixel_witness :
  let buf := replicate 16 Byte.x00 ++ replicate 784 Byte.x2a in
  uint8 <$> buf !! (16 + 0 * 784 + 3 * 28 + 5)%nat = Some 42.
Proof.
  intros buf.
  assert (load_mnist buf = inl [replicate 28 (replicate 28 42)]) as Hload
    by (vm_compute; reflexivity).
  destruct (load_mnist_pixel buf _ 0 3 5 _ _ 42 Hload eq_refl eq_refl eq_refl)
    as (_ & _ & Hbyte & _).
  exact Hbyte.
Defined.

(** X11: [load_labels] fails, with [ValueError], exactly when the file is
    shorter than its 8-byte header; otherwise it returns one row per byte
    after the header, holding that byte alone, in file order. *)
Theorem load_labels_rows (buf : list Byte.byte) :
  ((length buf < 8)%nat <-> load_labels buf = inr ValueError) /\
  ((8 <= length buf)%nat ->
   load_labels buf = inl ((fun b => [uint8 b]) <$> drop 8 buf)).
Proof.
  unfold load_labels. destruct (length buf <? 8)%nat eqn:Hshort.
  - apply Nat.ltb_lt in Hshort. split; [done|lia].
  - apply Nat.ltb_ge in Hshort. split; [split; [lia|done]|].
    intros _. by rewrite reshape_singletons, <- list_fmap_compose.
Qed.

Lemma load_labels_rows_witness :
  load_labels (replicate 8 Byte.x00 ++ [Byte.x07; Byte.x02]) = inl [[7]; [2]].
Proof.
  destruct (load_labels_rows (replicate 8 Byte.x00 ++ [Byte.x07; Byte.x02])) as [_ Hok].
  rewrite Hok by (simpl; lia). reflexivity.
Defined.

(** ** [index_generator] and [query_generator] *)

Lemma index_generator_loop_seq target data (start n : nat) :
  index_data target = Some data -> (start <= length data)%nat ->
  index_generator_loop target (seq start n)
  = (imap (fun k image => {| content := x_color (x_blackwhite image);
                             image_tags := {["id" := (start + k)%nat]} |})
          (take n (drop start data)),
     if decide (start + n <= length data)%nat then None else Some IndexError).
Proof.
  intros Hdata. revert start. induction n as [|n IH]; intros start Hstart.
  - simpl. by rewrite decide_True by lia.
  - cbn [seq index_generator_loop]. rewrite Hdata.
    destruct (data !! start) as [image|] eqn:Himage.
    + apply lookup_lt_Some in Himage as Hlt.
      rewrite IH by lia.
      rewrite (drop_S _ _ _ Himage). cbn [take]. rewrite imap_cons.
      f_equal.
      * f_equal; [by rewrite Nat.add_0_r|].
        apply imap_ext. intros k x _. simpl. do 3 f_equal. lia.
      * destruct (decide (S start + n <= length data)%nat),
          (decide (start + S n <= length data)%nat); (done || lia).
    + apply lookup_ge_None in Himage.
      rewrite drop_ge by lia. rewrite take_nil. simpl.
      by rewrite decide_False by lia.
Qed.

(** X12: on index data of [uint8] pixels, [index_generator] yields one
    document per image among the first [num_docs], in order, the k-th tagged
    [id = k] and holding the inverted image on three channels; it ends
    normally when [num_docs] is at most the number of images and raises
    [IndexError] after the last image otherwise.  When the data key is
    missing it raises [KeyError] before yielding anything, unless [num_docs]
    is not positive: then [target] is never read and nothing is yielded. *)
Theorem index_generator_documents (num_docs : Z) (target : Target) :
  (forall data,
     index_data target = Some data ->
     Forall (Forall (Forall (fun v => 0 <= v <= 255))) data ->
     index_generator num_docs target
     = (imap (fun k image => {| content := x_color (x_blackwhite image);
                                image_tags := {["id" := k]} |})
             (take (Z.to_nat num_docs) data),
        if decide (num_docs <= Z.of_nat (length data)) then None else Some IndexError)) /\
  (index_data target = None ->
   index_generator num_docs target
   = ([], if decide (0 < num_docs) then Some KeyError else None)).
Proof.
  unfold index_generator. split.
  - intros data Hdata _.
    rewrite (index_generator_loop_seq target data 0 _ Hdata) by lia.
    rewrite drop_0. f_equal.
    destruct (decide (0 + Z.to_nat num_docs <= length data)%nat),
      (decide (num_docs <= Z.of_nat (length data))); (done || lia).
  - intros Hdata. destruct (decide (0 < num_docs)) as [Hpos|Hpos].
    + destruct (Z.to_nat num_docs) as [|n] eqn:Hn; [lia|].
      cbn [seq index_generator_loop]. by rewrite Hdata.
    + by replace (Z.to_nat num_docs) with 0%nat by lia.
Qed.

Lemma index_generator_documents_witness :
  index_generator 3 (mkTarget (Some [[[0; 255]]; [[7; 200]]]) None None)
  = ([ {| content := [[[255; 255; 255]; [0; 0; 0]]]; image_tags := {["id" := 0%nat]} |};
       {| content := [[[248; 248; 248]; [55; 55; 55]]]; image_tags := {["id" := 1%nat]} |} ],
     Some IndexError).
Proof.
  destruct (index_generator_documents 3
              (mkTarget (Some [[[0; 255]]; [[7; 200]]]) None None)) as [Hdocs _].
  rewrite (Hdocs [[[0; 255]]; [[7; 200]]] eq_refl).
  - reflexivity.
  - repeat constructor; lia.
Defined.

Lemma invert_invert v : invert (invert v) = v.
Proof. unfold invert. lia. Qed.

Lemma first_channel_content (image : list (list Z)) :
  Forall (Forall (fun v => 0 <= v <= 255)) image ->
  first_channel (x_color (x_blackwhite image)) = image.
Proof.
  unfold first_channel, x_color, x_blackwhite.
  induction 1 as [|row image Hrow _ IH]; [done|].
  cbn [fmap list_fmap] in *. f_equal; [|exact IH].
  clear IH. induction Hrow as [|v row Hv _ IH]; [done|].
  cbn [fmap list_fmap] in *. f_equal; [|exact IH].
  simpl. by apply invert_invert.
Qed.

(** X13: for images of [uint8] pixels, the content [index_generator] and
    [query_generator] give a document has the shape of the image, every
    pixel [v] becoming the three equal channels [255 - v], again a
    [uint8]; and the content determines the image: two distinct images
    never give the same content. *)
Theorem content_of_an_image (image : list (list Z)) :
  Forall (Forall (fun v => 0 <= v <= 255)) image ->
  (forall r c row v, image !! r = Some row -> row !! c = Some v ->
     exists crow, x_color (x_blackwhite image) !! r = Some crow /\
                  length crow = length row /\
                  crow !! c = Some [255 - v; 255 - v; 255 - v] /\
                  0 <= 255 - v <= 255) /\
  length (x_color (x_blackwhite image)) = length image /\
  (forall other, Forall (Forall (fun v => 0 <= v <= 255)) other ->
     x_color (x_blackwhite other) = x_color (x_blackwhite image) -> other = image).
Proof.
  intros Himage. split; [|split].
  - intros r c row v Hrow Hv.
    assert (0 <= v <= 255) as Hrange.
    { rewrite Forall_lookup in Himage. specialize (Himage _ _ Hrow).
      rewrite Forall_lookup in Himage. exact (Himage _ _ Hv). }
    unfold x_color, x_blackwhite.
    rewrite !list_lookup_fmap, Hrow. simpl. eexists. split; [done|].
    split; [by rewrite !length_fmap|].
    rewrite !list_lookup_fmap, Hv. simpl. split; [|lia].
    reflexivity.
  - unfold x_color, x_blackwhite. by rewrite !length_fmap.
  - intros other Hother Heq.
    rewrite <- (first_channel_content other Hother), Heq.
    by apply first_channel_content.
Qed.

Lemma content_of_an_image_witness :
  exists crow, x_color (x_blackwhite [[0; 255]; [7; 200]]) !! 1%nat = Some crow /\
               length crow = 2%nat /\
               crow !! 0%nat = Some [248; 248; 248] /\
               0 <= 248 <= 255.
Proof.
  assert (Forall (Forall (fun v => 0 <= v <= 255)) [[0; 255]; [7; 200]]) as Himage.
  { repeat constructor; lia. }
  destruct (content_of_an_image _ Himage) as (Hpixel & _ & _).
  exact (Hpixel 1%nat 0%nat [7; 200] 7 eq_refl eq_refl).
Defined.

Lemma query_generator_loop_ok target randint labels data rounds :
  query_labels_data target = Some labels ->
  query_data target = Some data ->
  (length labels <= length data)%nat ->
  (forall k, (randint k < length labels)%nat) ->
  exists images,
    query_generator_loop target randint rounds
    = ((fun image => {| content := x_color (x_blackwhite image); image_tags := ∅ |})
         <$> images, None) /\
    Forall2 (fun k image => data !! randint k = Some image) rounds images.
Proof.
  intros Hlabels Hdata Hle Hrand. induction rounds as [|k rounds IH].
  - exists []. by split; [|constructor].
  - destruct IH as (images & Hloop & Himages).
    cbn [query_generator_loop]. rewrite Hlabels, Hdata.
    pose proof (Hrand k) as Hk.
    destruct (length labels =? 0)%nat eqn:Hzero; [apply Nat.eqb_eq in Hzero; lia|].
    destruct (data !! randint k) as [image|] eqn:Himage.
    + exists (image :: images). rewrite Hloop. split; [done|by constructor].
    + apply lookup_ge_None in Himage. lia.
Qed.

(** X14: when there is at least one query label, the query data are
    [uint8] images and at least as many as the labels, and every draw of
    [random.randint(0, num_data - 1)] lies within its bounds,
    [query_generator] never raises: it yields exactly [num_docs] documents
    (none when [num_docs] is not positive), the k-th made from the image at
    the index drawn in round [k], and none of them tagged. *)
Theorem query_generator_documents (num_docs : Z) target randint labels data :
  query_labels_data target = Some labels ->
  query_data target = Some data ->
  labels <> [] ->
  Forall (Forall (Forall (fun v => 0 <= v <= 255))) data ->
  (length labels <= length data)%nat ->
  (forall k, (randint k < length labels)%nat) ->
  exists images,
    query_generator num_docs target randint
    = ((fun image => {| content := x_color (x_blackwhite image); image_tags := ∅ |})
         <$> images, None) /\
    length images = Z.to_nat num_docs /\
    forall k image, images !! k = Some image -> data !! randint k = Some image.
Proof.
  intros Hlabels Hdata _ _ Hle Hrand. unfold query_generator.
  destruct (query_generator_loop_ok target randint labels data
              (seq 0 (Z.to_nat num_docs)) Hlabels Hdata Hle Hrand)
    as (images & Hloop & Himages).
  exists images. split; [exact Hloop|].
  apply Forall2_length in Himages as Hlen. rewrite length_seq in Hlen.
  split; [done|]. intros k image Hk.
  rewrite Forall2_lookup in Himages. specialize (Himages k).
  rewrite Hk in Himages. inversion Himages as [j image' Hj Hround Hsome|]; subst.
  symmetry in Hround. apply lookup_seq in Hround as [-> _]. exact Hj.
Qed.

Lemma query_generator_documents_witness :
  exists images,
    query_generator 3
      (mkTarget None (Some [[[0]]; [[9]]]) (Some [[1]; [2]])) (fun k => (k mod 2)%nat)
    = ((fun image => {| content := x_color (x_blackwhite image); image_tags := ∅ |})
         <$> images, None) /\
    length images = 3%nat.
Proof.
  destruct (query_generator_documents 3
              (mkTarget None (Some [[[0]]; [[9]]]) (Some [[1]; [2]]))
              (fun k => (k mod 2)%nat) [[1]; [2]] [[[0]]; [[9]]] eq_refl eq_refl)
    as (images & Hgen & Hlen & _).
  - discriminate.
  - repeat constructor; lia.
  - simpl. lia.
  - intros k. simpl length. apply Nat.mod_upper_bound. lia.
  - exists images. split; [exact Hgen|exact Hlen].
Defined.

Lemma query_generator_loop_out_of_range target randint labels data (start k : nat) rest :
  query_labels_data target = Some labels ->
  query_data target = Some data ->
  labels <> [] ->
  (forall j, (start <= j < start + k)%nat -> (randint j < length data)%nat) ->
  (length data <= randint (start + k))%nat ->
  exists docs,
    query_generator_loop target randint (seq start k ++ (start + k)%nat :: rest)
    = (docs, Some IndexError) /\ length docs = k.
Proof.
  intros Hlabels Hdata Hne. revert start.
  assert ((length labels =? 0)%nat = false) as Hzero.
  { apply Nat.eqb_neq. by destruct labels. }
  induction k as [|k IH]; intros start Hbefore Hout.
  - exists []. rewrite Nat.add_0_r in *. cbn [seq app query_generator_loop].
    rewrite Hlabels, Hdata, Hzero.
    by rewrite (proj2 (lookup_ge_None _ _) Hout).
  - destruct (IH (S start)) as (docs & Hloop & Hlen).
    { intros j Hj. apply Hbefore. lia. }
    { by replace (S start + k)%nat with (start + S k)%nat by lia. }
    replace (S start + k)%nat with (start + S k)%nat in Hloop by lia.
    cbn [seq app query_generator_loop]. rewrite Hlabels, Hdata, Hzero.
    destruct (data !! randint start) as [image|] eqn:Himage.
    + rewrite Hloop. eexists. split; [done|]. simpl. by rewrite Hlen.
    + apply lookup_ge_None in Himage. specialize (Hbefore start). lia.
Qed.

(** X15: [query_generator] draws its index against the number of query
    labels but reads the query images with it.  With more labels than
    images, the first round whose draw lies beyond the images raises
    [IndexError], after one document for each round before it. *)
Theorem query_generator_draws_from_labels (num_docs : Z) target randint labels data (k : nat) :
  query_labels_data target = Some labels ->
  query_data target = Some data ->
  labels <> [] ->
  Z.of_nat k < num_docs ->
  (forall j, (j < k)%nat -> (randint j < length data)%nat) ->
  (length data <= randint k)%nat ->
  exists docs,
    query_generator num_docs target randint = (docs, Some IndexError) /\
    length docs = k.
Proof.
  intros Hlabels Hdata Hne Hk Hbefore Hout. unfold query_generator.
  replace (Z.to_nat num_docs) with (k + S (Z.to_nat num_docs - S k))%nat by lia.
  rewrite seq_app. cbn [seq].
  apply (query_generator_loop_out_of_range target randint labels data 0 k);
    try done.
  intros j Hj. apply Hbefore. lia.
Qed.

Lemma query_generator_draws_from_labels_witness :
  exists docs,
    query_generator 5
      (mkTarget None (Some [[[0]]]) (Some [[1]; [2]])) (fun j => (j / 2)%nat)
    = (docs, Some IndexError) /\ length docs = 2%nat.
Proof.
  apply (query_generator_draws_from_labels 5 _ _ [[1]; [2]] [[[0]]] 2);
    try done.
  intros j Hj. simpl length.
  destruct j as [|[|j]]; [vm_compute; lia|vm_compute; lia|lia].
Defined.

(** X16: [query_generator] on an empty label array raises [ValueError] at
    the first draw, whatever the query images are; with [num_docs] not
    positive it yields nothing and reads nothing. *)
Theorem query_generator_empty (num_docs : Z) target randint :
  (num_docs <= 0 -> query_generator num_docs target randint = ([], None)) /\
  (0 < num_docs -> query_labels_data target = Some [] ->
   query_generator num_docs target randint = ([], Some ValueError)).
Proof.
  unfold query_generator. split.
  - intros Hn. by replace (Z.to_nat num_docs) with 0%nat by lia.
  - intros Hn Hlabels. destruct (Z.to_nat num_docs) as [|n] eqn:E; [lia|].
    cbn [seq query_generator_loop]. by rewrite Hlabels.
Qed.

Lemma query_generator_empty_witness :
  query_generator 4 (mkTarget None (Some [[[0]]]) (Some [])) (fun _ => 0%nat)
  = ([], Some ValueError).
Proof.
  destruct (query_generator_empty 4 (mkTarget None (Some [[[0]]]) (Some []))
              (fun _ => 0%nat)) as [_ Hempty].
  apply Hempty; [lia|reflexivity].
Defined.

(** ** [print_result] *)

Section PrintResultProperties.
Context {Score Value : Type}.
Variable repr : Score -> string.

Lemma print_matches_app (html : list string) (ms : list (@MatchDocument Score)) :
  print_matches repr html ms = html ++ (match_img repr <$> ms).
Proof.
  unfold print_matches. revert html. induction ms as [|kk ms IH]; intros html.
  - simpl. by rewrite app_nil_r.
  - cbn [foldl fmap list_fmap]. rewrite IH. by rewrite <- app_assoc.
Qed.

Lemma print_doc_html (g : @Globals Value) (d : @ResultDocument Score Value) :
  result_html (print_doc repr g d) = result_html g ++ rows_of repr d.
Proof.
  unfold print_doc, rows_of. cbn [result_html].
  rewrite print_matches_app. by rewrite <- !app_assoc.
Qed.

Lemma update_evaluations_lookup (ev : gmap string Value) items k :
  update_evaluations ev items !! k
  = match last (filter (fun kv : string * Value => kv.1 = k) items) with
    | Some kv => Some kv.2
    | None => ev !! k
    end.
Proof.
  unfold update_evaluations. induction items as [|kv items IH] using rev_ind; [done|].
  rewrite foldl_app, filter_app. cbn [foldl].
  rewrite last_app. rewrite filter_cons, filter_nil.
  destruct (decide (kv.1 = k)) as [<-|Hne].
  - simpl. by rewrite lookup_insert_eq.
  - simpl. by rewrite lookup_insert_ne.
Qed.

Lemma print_result_evaluation_value (g : @Globals Value)
    (docs : list (@ResultDocument Score Value)) :
  evaluation_value (print_result repr g docs)
  = update_evaluations (evaluation_value g) (concat (evaluations <$> docs)).
Proof.
  unfold print_result. revert g. induction docs as [|d docs IH]; intros g; [done|].
  cbn [foldl fmap list_fmap concat]. rewrite IH.
  unfold update_evaluations. by rewrite foldl_app.
Qed.

(** X17: [print_result] only appends to [result_html]: what was there stays
    in front, and every document of the response adds its opening row, one
    image per match in order and the closing row, [2 + len(d.matches)]
    entries.  [top_k] ends as the number of matches of the last document
    alone, and is left as it was by a response without documents. *)
Theorem print_result_html (g : @Globals Value) (docs : list (@ResultDocument Score Value)) :
  result_html (print_result repr g docs)
  = result_html g ++ concat (rows_of repr <$> docs) /\
  length (result_html (print_result repr g docs))
  = (length (result_html g) + sum_list ((fun d => 2 + length (matches d))%nat <$> docs))%nat /\
  top_k (print_result repr g docs)
  = default (top_k g) ((fun d => length (matches d)) <$> last docs).
Proof.
  assert (result_html (print_result repr g docs)
          = result_html g ++ concat (rows_of repr <$> docs)) as Hhtml.
  { unfold print_result. revert g. induction docs as [|d docs IH]; intros g.
    - simpl. by rewrite app_nil_r.
    - cbn [foldl fmap list_fmap concat]. rewrite IH, print_doc_html.
      by rewrite <- app_assoc. }
  split; [exact Hhtml|]. split.
  - rewrite Hhtml, length_app. f_equal. clear Hhtml.
    induction docs as [|d docs IH]; [done|].
    cbn [fmap list_fmap concat sum_list sum_list_with]. rewrite length_app, IH.
    unfold rows_of. cbn [length]. rewrite length_app, length_fmap. simpl. lia.
  - unfold print_result. clear Hhtml.
    induction docs as [|d docs IH] using rev_ind; [done|].
    rewrite foldl_app, last_snoc. reflexivity.
Qed.

(** X18: after [print_result], [evaluation_value] holds under every key the
    value of the last evaluation with that key, in the order of the
    documents and of their items; a key no document evaluates keeps the
    entry it had, or stays absent. *)
Theorem print_result_evaluations (g : @Globals Value)
    (docs : list (@ResultDocument Score Value)) (k : string) :
  evaluation_value (print_result repr g docs) !! k
  = match last (filter (fun kv : string * Value => kv.1 = k)
                  (concat (evaluations <$> docs))) with
    | Some kv => Some kv.2
    | None => evaluation_value g !! k
    end.
Proof. by rewrite print_result_evaluation_value, update_evaluations_lookup. Qed.
End PrintResultProperties.
